(** * data-cleaner: the [UltimateDataPipeline] stages, embedded and verified

    The program (src/data-cleaner.py) keeps one pandas [DataFrame] and a
    report dictionary inside a controller object; every stage mutates the
    frame in place and returns the controller.  The embedding below follows
    the source stage by stage:

    - text is modelled over 8-bit strings read as ASCII: [str.strip],
      [str.lower], the literal replacement of the space and the removal of
      the class [[^\w\s]] are character-wise functions on [string];
    - a float64/int64 cell is an [option Q]: [None] is NaN, arithmetic is
      exact; an object cell is an [option string]; the library calls have
      the meaning they have in pandas 1.x/2.x, where text read from a file
      is an object column and [astype(str)] prints NaN as "nan";
    - a frame is a row count and a list of labelled, typed columns; label
      access [df[col]] is a search by label, so statements about loops over
      labels carry the hypothesis that labels are distinct (pandas needs it
      for [df[col]] to be a Series at all);
    - the controller state is the frame, the report and the records sent to
      the module logger; [handle_outliers] may raise, so it returns an
      outcome. *)

From Stdlib Require Import List String Ascii Bool Arith ZArith QArith Qround.
From Stdlib Require Import Lia Lqa Permutation SetoidList Sorted.
From Stdlib Require OrderedTypeEx.
Import ListNotations.

Set Implicit Arguments.

Close Scope Q_scope.
Open Scope string_scope.
Open Scope nat_scope.
Open Scope list_scope.

(* ================================================================== *)
(** ** Text: the string methods used by [standardize] *)

Module Text.

Definition code (c : ascii) : nat := nat_of_ascii c.

Definition between (lo hi n : nat) : bool := (lo <=? n)%nat && (n <=? hi)%nat.

(** [str.isspace] on the ASCII range: TAB..CR, FS..US and the space.
    [str.strip()] and the regex class [\s] both use it. *)
Definition is_space (c : ascii) : bool :=
  between 9 13 (code c) || between 28 32 (code c).

(** The regex class [\w] on the ASCII range: letters, digits, underscore. *)
Definition is_word (c : ascii) : bool :=
  between 48 57 (code c) || between 65 90 (code c)
  || between 97 122 (code c) || (code c =? 95)%nat.

(** [str.lower] on one character. *)
Definition lower_char (c : ascii) : ascii :=
  if between 65 90 (code c) then ascii_of_nat (code c + 32) else c.

(** [.replace(' ', '_')] on one character. *)
Definition space_to_underscore (c : ascii) : ascii :=
  if (code c =? 32)%nat then "_"%char else c.

(** What [re.sub(r'[^\w\s]', '', s)] keeps. *)
Definition kept_by_regex (c : ascii) : bool := is_word c || is_space c.

Fixpoint smap (f : ascii -> ascii) (s : string) : string :=
  match s with
  | EmptyString => EmptyString
  | String c s' => String (f c) (smap f s')
  end.

Fixpoint sfilter (p : ascii -> bool) (s : string) : string :=
  match s with
  | EmptyString => EmptyString
  | String c s' => if p c then String c (sfilter p s') else sfilter p s'
  end.

Fixpoint sall (p : ascii -> bool) (s : string) : bool :=
  match s with
  | EmptyString => true
  | String c s' => p c && sall p s'
  end.

Fixpoint lstrip (s : string) : string :=
  match s with
  | EmptyString => EmptyString
  | String c s' => if is_space c then lstrip s' else s
  end.

Fixpoint rstrip (s : string) : string :=
  match s with
  | EmptyString => EmptyString
  | String c s' =>
      match rstrip s' with
      | EmptyString => if is_space c then EmptyString else String c EmptyString
      | r => String c r
      end
  end.

(** [str.strip()] *)
Definition strip (s : string) : string := rstrip (lstrip s).

(** [str.lower()] *)
Definition lower (s : string) : string := smap lower_char s.

(** The chain applied to [self.df.columns] (lines 61-65):
    [.str.strip().str.lower().str.replace(' ', '_')
     .str.replace(r'[^\w\s]', '', regex=True)]. *)
Definition clean_name (s : string) : string :=
  sfilter kept_by_regex (smap space_to_underscore (lower (strip s))).

(** A character that is no whitespace other than the plain space. *)
Definition plain (c : ascii) : bool := negb (is_space c) || (code c =? 32).

(** Names whose only whitespace characters are plain spaces. *)
Definition only_plain_spaces (s : string) : bool := sall plain s.

(** A character that the name chain leaves alone: it survives the regex,
    is not the plain space and is its own lower case. *)
Definition stable (c : ascii) : bool :=
  kept_by_regex c && negb (code c =? 32) && (code (lower_char c) =? code c).

End Text.

(* ================================================================== *)
(** ** Stats: order statistics and the mode, as pandas computes them *)

Module Stats.

Section Sorting.
Variable A : Type.
Variable leb : A -> A -> bool.

Fixpoint insert_sorted (x : A) (l : list A) : list A :=
  match l with
  | [] => [x]
  | y :: l' => if leb x y then x :: l else y :: insert_sorted x l'
  end.

Fixpoint sort (l : list A) : list A :=
  match l with
  | [] => []
  | x :: l' => insert_sorted x (sort l')
  end.
End Sorting.

(** The present (non-missing) values of a column, in row order. *)
Fixpoint present (A : Type) (xs : list (option A)) : list A :=
  match xs with
  | [] => []
  | Some v :: xs' => v :: present xs'
  | None :: xs' => present xs'
  end.

Definition is_missing (A : Type) (x : option A) : bool :=
  match x with None => true | Some _ => false end.

(** [Series.isnull().any()] *)
Definition has_missing (A : Type) (xs : list (option A)) : bool :=
  existsb (@is_missing A) xs.

(** [Series.fillna(v)] *)
Definition fillna (A : Type) (v : A) (xs : list (option A)) : list (option A) :=
  map (fun x => match x with None => Some v | Some _ => x end) xs.

(** [Series.quantile(q)] with the default linear interpolation: over the
    sorted present values [s] of length [n], the virtual index is
    [q * (n - 1)]; the result interpolates between its two neighbours.
    No present value: NaN. *)
Definition quantile (q : Q) (xs : list (option Q)) : option Q :=
  let s := sort Qle_bool (present xs) in
  match s with
  | [] => None
  | _ =>
      let n := length s in
      let h := (q * inject_Z (Z.of_nat (n - 1)))%Q in
      let lo := Z.to_nat (Qfloor h) in
      let hi := Nat.min (lo + 1) (n - 1) in
      let frac := (h - inject_Z (Qfloor h))%Q in
      let a := nth lo s 0%Q in
      let b := nth hi s 0%Q in
      Some (a + (b - a) * frac)%Q
  end.

(** [Series.median()]: NaN skipped; the middle value, or the mean of the
    two middle values. *)
Definition median (xs : list (option Q)) : option Q :=
  let s := sort Qle_bool (present xs) in
  match s with
  | [] => None
  | _ =>
      let n := length s in
      if Nat.even n
      then Some ((nth (n / 2 - 1) s 0%Q + nth (n / 2) s 0%Q) / 2)%Q
      else Some (nth (n / 2) s 0%Q)
  end.

Section Mode.
Variable A : Type.
Variable eqb : A -> A -> bool.
Variable leb : A -> A -> bool.

Definition count (x : A) (l : list A) : nat := length (filter (eqb x) l).

Definition max_count (l : list A) : nat :=
  fold_right Nat.max 0 (map (fun x => count x l) l).

Fixpoint dedup (l : list A) : list A :=
  match l with
  | [] => []
  | x :: l' => if existsb (eqb x) l' then dedup l' else x :: dedup l'
  end.

(** [Series.mode()]: NaN dropped, the values of maximal count, sorted. *)
Definition mode (xs : list (option A)) : list A :=
  let l := present xs in
  sort leb (dedup (filter (fun x => (count x l =? max_count l)%nat) l)).
End Mode.

End Stats.

(* ================================================================== *)
(** ** Frame: the pandas [DataFrame] as the stages use it *)

Module Frame.

(** A cell value as a row sees it. *)
Inductive Value : Type :=
| VNum (q : Q)
| VStr (s : string)
| VDate (t : Z).

Definition Cell : Type := option Value.
Definition Row : Type := list Cell.

(** A column's values together with its dtype: [int64]/[float64],
    [object], [datetime64] (NaT is [None]) and [category]. *)
Inductive ColData : Type :=
| NumCol (xs : list (option Q))
| ObjCol (xs : list (option string))
| DateCol (xs : list (option Z))
| CatCol (xs : list (option string)).

Record Column : Type := mkColumn { label : string; data : ColData }.

(** [nrows] is the length of the index; [shape] is
    [(nrows, length columns)]. *)
Record DataFrame : Type := mkDataFrame { nrows : nat; columns : list Column }.

Definition cells (d : ColData) : list Cell :=
  match d with
  | NumCol xs => map (option_map VNum) xs
  | ObjCol xs => map (option_map VStr) xs
  | DateCol xs => map (option_map VDate) xs
  | CatCol xs => map (option_map VStr) xs
  end.

Definition col_len (d : ColData) : nat := length (cells d).

(** Every column has one cell per index entry. *)
Definition well_formed (df : DataFrame) : Prop :=
  Forall (fun c => col_len (data c) = nrows df) (columns df).

Definition labels (df : DataFrame) : list string := map label (columns df).

(** Column labels are pairwise distinct. *)
Definition unique_labels (df : DataFrame) : Prop := NoDup (labels df).

Definition ncols (df : DataFrame) : nat := length (columns df).

(** [df.shape] *)
Definition shape (df : DataFrame) : nat * nat := (nrows df, ncols df).

(** [df.empty]: some axis has length zero. *)
Definition empty (df : DataFrame) : bool := (nrows df =? 0) || (ncols df =? 0).

(** [df[col]] for an existing label. *)
Definition get_col (col : string) (df : DataFrame) : option ColData :=
  option_map data (find (fun c => String.eqb (label c) col) (columns df)).

(** [df[col] = d] for an existing label: the column keeps its place. *)
Definition set_col (col : string) (d : ColData) (df : DataFrame) : DataFrame :=
  {| nrows := nrows df;
     columns := map (fun c => if String.eqb (label c) col then mkColumn col d else c)
                    (columns df) |}.

(** [df.columns = f(df.columns)]: labels are replaced by position. *)
Definition rename_columns (f : string -> string) (df : DataFrame) : DataFrame :=
  {| nrows := nrows df;
     columns := map (fun c => mkColumn (f (label c)) (data c)) (columns df) |}.

Definition is_object (d : ColData) : bool :=
  match d with ObjCol _ => true | _ => false end.

(** Membership in [np.number]. *)
Definition is_number (d : ColData) : bool :=
  match d with NumCol _ => true | _ => false end.

(** [df.select_dtypes(include=...).columns] *)
Definition select_dtypes (p : ColData -> bool) (df : DataFrame) : list string :=
  map label (filter (fun c => p (data c)) (columns df)).

(** Boolean indexing of one array. *)
Fixpoint keep_by (A : Type) (mask : list bool) (xs : list A) : list A :=
  match mask, xs with
  | b :: mask', x :: xs' => if b then x :: keep_by mask' xs' else keep_by mask' xs'
  | _, _ => []
  end.

Definition select_data (mask : list bool) (d : ColData) : ColData :=
  match d with
  | NumCol xs => NumCol (keep_by mask xs)
  | ObjCol xs => ObjCol (keep_by mask xs)
  | DateCol xs => DateCol (keep_by mask xs)
  | CatCol xs => CatCol (keep_by mask xs)
  end.

(** [df[mask]] *)
Definition select_rows (mask : list bool) (df : DataFrame) : DataFrame :=
  {| nrows := length (keep_by mask (seq 0 (nrows df)));
     columns := map (fun c => mkColumn (label c) (select_data mask (data c)))
                    (columns df) |}.

(** The rows of a frame: the columns read across. *)
Fixpoint zip_cons (col : list Cell) (rs : list Row) : list Row :=
  match col, rs with
  | c :: col', r :: rs' => (c :: r) :: zip_cons col' rs'
  | _, _ => []
  end.

Definition rows (df : DataFrame) : list Row :=
  fold_right zip_cons (repeat [] (nrows df)) (map (fun c => cells (data c)) (columns df)).

(** Value equality of cells as [duplicated] sees it: numbers by value,
    two missing markers equal. *)
Definition value_eqb (a b : Value) : bool :=
  match a, b with
  | VNum x, VNum y => Qeq_bool x y
  | VStr x, VStr y => String.eqb x y
  | VDate x, VDate y => Z.eqb x y
  | _, _ => false
  end.

Definition cell_eqb (a b : Cell) : bool :=
  match a, b with
  | None, None => true
  | Some x, Some y => value_eqb x y
  | _, _ => false
  end.

Fixpoint row_eqb (r s : Row) : bool :=
  match r, s with
  | [], [] => true
  | a :: r', b :: s' => cell_eqb a b && row_eqb r' s'
  | _, _ => false
  end.

(** Two rows are value-identical. *)
Definition row_eq (r s : Row) : Prop := row_eqb r s = true.

(** [df.duplicated(keep='first')]: a row is flagged when an equal row
    came before it. *)
Fixpoint duplicated_from (seen : list Row) (rs : list Row) : list bool :=
  match rs with
  | [] => []
  | r :: rs' => existsb (row_eqb r) seen :: duplicated_from (r :: seen) rs'
  end.

Definition duplicated (df : DataFrame) : list bool := duplicated_from [] (rows df).

(** [df.drop_duplicates(inplace=True)] *)
Definition drop_duplicates (df : DataFrame) : DataFrame :=
  select_rows (map negb (duplicated df)) df.

Definition all_missing (r : Row) : bool := forallb (@Stats.is_missing Value) r.

(** [df.dropna(how='all', inplace=True)] *)
Definition dropna_all (df : DataFrame) : DataFrame :=
  select_rows (map (fun r => negb (all_missing r)) (rows df)) df.

Section Foreach.
Variable guard : ColData -> bool.
Variable f : ColData -> ColData.

(** The shape shared by the stage loops over labels:
    [if guard(df[col]): df[col] = f(df[col])]. *)
Definition visit (d : DataFrame) (col : string) : DataFrame :=
  match get_col col d with
  | Some c => if guard c then set_col col (f c) d else d
  | None => d
  end.

(** The same turn seen from the column. *)
Definition visited (c : Column) : Column :=
  if guard (data c) then mkColumn (label c) (f (data c)) else c.

Definition visit_columns (names : list string) (cols : list Column) : list Column :=
  map (fun c => if existsb (String.eqb (label c)) names then visited c else c) cols.

(** The same turn with a counter of the assignments made. *)
Definition visit_counting (acc : DataFrame * nat) (col : string) : DataFrame * nat :=
  let (d, n) := acc in
  match get_col col d with
  | Some c => if guard c then (set_col col (f c) d, n + 1) else acc
  | None => acc
  end.

(** Whether the turn for the label [col] assigns. *)
Definition guard_at (d : DataFrame) (col : string) : bool :=
  match get_col col d with
  | Some c => guard c
  | None => false
  end.
End Foreach.

(** [mask & col_mask] *)
Fixpoint mask_and (m1 m2 : list bool) : list bool :=
  match m1, m2 with
  | a :: m1', b :: m2' => (a && b) :: mask_and m1' m2'
  | _, _ => []
  end.

End Frame.

(* ================================================================== *)
(** ** Pipeline: the controller and its stages *)

Module Pipeline.
Import Frame.

(** The messages handed to the logger, with the numbers they carry. *)
Inductive Message : Type :=
| MsgLoaded (n_rows n_cols : nat)
| MsgEmptySkipped
| MsgStandardized
| MsgGarbageRemoved (removed : nat)
| MsgNoGarbage
| MsgImputed (imputed_count : nat)
| MsgNothingToImpute
| MsgRowsRemoved (removed : nat)
| MsgNoRowsToRemove
| MsgCapped (outlier_cols : nat)
| MsgNoOutliers
| MsgBadMethod (method : string)
| MsgOptimized.

Inductive LogRecord : Type :=
| Info (m : Message)
| Warning (m : Message)
| Error (m : Message).

(** A value of the report dictionary ([Dict[str, Any]]): the shape tuple
    written at construction, or an integer statistic. *)
Inductive ReportValue : Type :=
| Shape (n_rows n_cols : nat)
| Stat (n : nat).

Definition Report : Type := list (string * ReportValue).

Fixpoint report_get (key : string) (r : Report) : option ReportValue :=
  match r with
  | [] => None
  | (k, v) :: r' => if String.eqb k key then Some v else report_get key r'
  end.

(** The controller: [self.df], [self.report] and the records emitted on
    the module logger so far. *)
Record State : Type := mkState {
  df : DataFrame;
  report : Report;
  log : list LogRecord
}.

Definition emit (r : LogRecord) (p : State) : State :=
  {| df := df p; report := report p; log := log p ++ [r] |}.

Definition with_df (d : DataFrame) (p : State) : State :=
  {| df := d; report := report p; log := log p |}.

Inductive Exn : Type :=
| ValueError (m : Message).

(** A stage call either returns the controller or raises, leaving the
    controller in the state reached so far. *)
Inductive Outcome : Type :=
| Returned (p : State)
| Raised (e : Exn) (p : State).

Definition state_of (o : Outcome) : State :=
  match o with Returned p => p | Raised _ p => p end.

Definition raised (o : Outcome) : bool :=
  match o with Returned _ => false | Raised _ _ => true end.

(** [__init__] on the frame that [_ingest] produced (lines 22-24). *)
Definition init (ingested : DataFrame) : State :=
  {| df := ingested;
     report := [("initial_shape", Shape (nrows ingested) (ncols ingested))];
     log := [Info (MsgLoaded (nrows ingested) (ncols ingested))] |}.

(* ---------------------------------------------------------------- *)
(** *** 1. standardize (lines 55-73) *)

(** [.astype(str)] on an object cell: NaN prints as ["nan"]. *)
Definition astype_str (x : option string) : string :=
  match x with Some s => s | None => "nan" end.

(** [self.df[col].astype(str).str.strip()] *)
Definition strip_cells (xs : list (option string)) : list (option string) :=
  map (fun x => Some (Text.strip (astype_str x))) xs.

(** The body of [for col in str_cols].  The labels come from
    [select_dtypes(include=['object'])], so the column found is an
    object column. *)
Definition standardize_col (d : DataFrame) (col : string) : DataFrame :=
  match get_col col d with
  | Some (ObjCol xs) => set_col col (ObjCol (strip_cells xs)) d
  | _ => d
  end.

(** The assignment of that loop as a function of the column. *)
Definition standardize_data (d : ColData) : ColData :=
  match d with
  | ObjCol xs => ObjCol (strip_cells xs)
  | _ => d
  end.

Definition standardize (p : State) : State :=
  if empty (df p) then emit (Warning MsgEmptySkipped) p
  else
    let d1 := rename_columns Text.clean_name (df p) in
    let str_cols := select_dtypes is_object d1 in
    let d2 := fold_left standardize_col str_cols d1 in
    emit (Info MsgStandardized) (with_df d2 p).

(* ---------------------------------------------------------------- *)
(** *** 2. handle_garbage (lines 75-89) *)

Definition handle_garbage (p : State) : State :=
  if empty (df p) then p
  else
    let before := nrows (df p) in
    let d1 := drop_duplicates (df p) in
    let d2 := dropna_all d1 in
    let removed := before - nrows d2 in
    let p' := with_df d2 p in
    if 0 <? removed then emit (Info (MsgGarbageRemoved removed)) p'
    else emit (Info MsgNoGarbage) p'.

(* ---------------------------------------------------------------- *)
(** *** 3. impute_missing (lines 91-114) *)

(** [is_numeric_dtype] branch: [fillna(median)]; a NaN median fills
    nothing. *)
Definition fill_median (xs : list (option Q)) : list (option Q) :=
  match Stats.median xs with
  | Some m => Stats.fillna m xs
  | None => xs
  end.

(** Other dtypes: [fillna(mode_series[0])] unless the mode is empty. *)
Definition fill_mode (A : Type) (eqb leb : A -> A -> bool)
    (xs : list (option A)) : list (option A) :=
  match Stats.mode eqb leb xs with
  | m :: _ => Stats.fillna m xs
  | [] => xs
  end.

Definition has_null (d : ColData) : bool :=
  existsb (@Stats.is_missing Value) (cells d).

(** The assignment of the loop below as a function of the column. *)
Definition impute_data (d : ColData) : ColData :=
  match d with
  | NumCol xs => NumCol (fill_median xs)
  | ObjCol xs => ObjCol (fill_mode String.eqb String.leb xs)
  | DateCol xs => DateCol (fill_mode Z.eqb Z.leb xs)
  | CatCol xs => CatCol (fill_mode String.eqb String.leb xs)
  end.

(** What one turn of the loop below does to the column it visits. *)
Definition impute_turn (c : ColData) : ColData :=
  if has_null c then impute_data c else c.

(** One turn of [for col in self.df.columns], on the frame and the
    counter [imputed_count]. *)
Definition impute_col (acc : DataFrame * nat) (col : string) : DataFrame * nat :=
  let (d, imputed_count) := acc in
  match get_col col d with
  | Some c =>
      if has_null c then (set_col col (impute_data c) d, imputed_count + 1)
      else acc
  | None => acc
  end.

(** The loop run over the labels in a given order. *)
Definition impute_over (order : list string) (d : DataFrame) : DataFrame * nat :=
  fold_left impute_col order (d, 0).

Definition impute_missing (p : State) : State :=
  if empty (df p) then p
  else
    let (d, imputed_count) := impute_over (labels (df p)) (df p) in
    let p' := with_df d p in
    if 0 <? imputed_count then emit (Info (MsgImputed imputed_count)) p'
    else emit (Info MsgNothingToImpute) p'.

(* ---------------------------------------------------------------- *)
(** *** 4. handle_outliers (lines 116-188) *)

Definition Qltb (a b : Q) : bool := negb (Qle_bool b a).

Definition notna (A : Type) (x : option A) : bool := negb (Stats.is_missing x).

(** [(s >= lower_bound) & (s <= upper_bound)] on one cell; a comparison
    with NaN is False. *)
Definition within (lower_bound upper_bound : Q) (x : option Q) : bool :=
  match x with
  | Some v => Qle_bool lower_bound v && Qle_bool v upper_bound
  | None => false
  end.

(** [(s < lower_bound) | (s > upper_bound)] on one cell. *)
Definition outside (lower_bound upper_bound : Q) (x : option Q) : bool :=
  match x with
  | Some v => Qltb v lower_bound || Qltb upper_bound v
  | None => false
  end.

(** One turn of the loop of the ['remove'] branch (lines 135-152): the
    frame is only read, the mask is narrowed.  When the quantiles are
    NaN (no present value) the IQR is NaN, the test [IQR == 0] fails and
    every comparison with the NaN bounds is False. *)
Definition remove_col (threshold : Q) (d : DataFrame)
    (mask : list bool) (col : string) : list bool :=
  match get_col col d with
  | Some (NumCol xs) =>
      match Stats.quantile (1 # 4) xs, Stats.quantile (3 # 4) xs with
      | Some Q1, Some Q3 =>
          let IQR := (Q3 - Q1)%Q in
          if Qeq_bool IQR 0 then mask
          else
            let lower_bound := (Q1 - threshold * IQR)%Q in
            let upper_bound := (Q3 + threshold * IQR)%Q in
            let col_mask :=
              map (fun x => within lower_bound upper_bound x || negb (notna x)) xs in
            mask_and mask col_mask
      | _, _ =>
          mask_and mask (map (fun x => false || negb (notna x)) xs)
      end
  | _ => mask
  end.

(** The entry of that column mask for one cell [x] of the column [xs],
    [true] when the column is skipped. *)
Definition remove_cell_ok (threshold : Q) (xs : list (option Q)) (x : option Q) : bool :=
  match Stats.quantile (1 # 4) xs, Stats.quantile (3 # 4) xs with
  | Some Q1, Some Q3 =>
      let IQR := (Q3 - Q1)%Q in
      if Qeq_bool IQR 0 then true
      else
        let lower_bound := (Q1 - threshold * IQR)%Q in
        let upper_bound := (Q3 + threshold * IQR)%Q in
        within lower_bound upper_bound x || negb (notna x)
  | _, _ => false || negb (notna x)
  end.

(** The same for the column labelled [col] and the row [i]. *)
Definition remove_row_ok (threshold : Q) (d : DataFrame) (i : nat) (col : string) : bool :=
  match get_col col d with
  | Some (NumCol xs) => remove_cell_ok threshold xs (nth i xs None)
  | _ => true
  end.

(** The two [np.where] assignments of lines 176-177, in that order. *)
Definition cap_values (lower_bound upper_bound : Q)
    (xs : list (option Q)) : list (option Q) :=
  let xs1 :=
    map (fun x => match x with
                  | Some v => if Qltb v lower_bound then Some lower_bound else x
                  | None => x
                  end) xs in
  map (fun x => match x with
                | Some v => if Qltb upper_bound v then Some upper_bound else x
                | None => x
                end) xs1.

(** What the ['cap'] branch does to the values of one numeric column
    (lines 164-177). *)
Definition cap_data (threshold : Q) (xs : list (option Q)) : option (list (option Q)) :=
  match Stats.quantile (1 # 4) xs, Stats.quantile (3 # 4) xs with
  | Some Q1, Some Q3 =>
      let IQR := (Q3 - Q1)%Q in
      if Qeq_bool IQR 0 then None
      else
        let lower_bound := (Q1 - threshold * IQR)%Q in
        let upper_bound := (Q3 + threshold * IQR)%Q in
        let has_outliers := existsb (outside lower_bound upper_bound) xs in
        if has_outliers then Some (cap_values lower_bound upper_bound xs)
        else None
  | _, _ => None
  end.

(** One turn of the loop of the ['cap'] branch, on the frame and the
    counter [outlier_cols]. *)
Definition cap_col (threshold : Q) (acc : DataFrame * nat) (col : string)
    : DataFrame * nat :=
  let (d, outlier_cols) := acc in
  match get_col col d with
  | Some (NumCol xs) =>
      match cap_data threshold xs with
      | Some xs' => (set_col col (NumCol xs') d, outlier_cols + 1)
      | None => acc
      end
  | _ => acc
  end.

(** The assignment of that loop as a function of the column. *)
Definition cap_guard (threshold : Q) (d : ColData) : bool :=
  match d with
  | NumCol xs => match cap_data threshold xs with Some _ => true | None => false end
  | _ => false
  end.

Definition cap_column (threshold : Q) (d : ColData) : ColData :=
  match d with
  | NumCol xs =>
      match cap_data threshold xs with
      | Some xs' => NumCol xs'
      | None => d
      end
  | _ => d
  end.

Definition default_threshold : Q := 3 # 2.

Definition handle_outliers (threshold : Q) (method : string) (p : State) : Outcome :=
  if empty (df p) then Returned p
  else
    let num_cols := select_dtypes is_number (df p) in
    if String.eqb method "remove" then
      let initial_rows := nrows (df p) in
      let mask := fold_left (remove_col threshold (df p)) num_cols
                            (repeat true (nrows (df p))) in
      let d := select_rows mask (df p) in
      let removed := initial_rows - nrows d in
      let p' := with_df d p in
      if 0 <? removed then Returned (emit (Info (MsgRowsRemoved removed)) p')
      else Returned (emit (Info MsgNoRowsToRemove) p')
    else if String.eqb method "cap" then
      let (d, outlier_cols) := fold_left (cap_col threshold) num_cols (df p, 0) in
      let p' := with_df d p in
      if 0 <? outlier_cols then Returned (emit (Info (MsgCapped outlier_cols)) p')
      else Returned (emit (Info MsgNoOutliers) p')
    else
      Raised (ValueError (MsgBadMethod method))
             (emit (Error (MsgBadMethod method)) p).

(* ---------------------------------------------------------------- *)
(** *** 5. optimize (lines 190-209) *)

(** ['fecha' in s] *)
Fixpoint contains (pat s : string) : bool :=
  String.prefix pat s
  || match s with
     | EmptyString => false
     | String _ s' => contains pat s'
     end.

(** [Series.nunique()]: distinct present values. *)
Definition nunique (xs : list (option string)) : nat :=
  length (Stats.dedup String.eqb (Stats.present xs)).

Definition Qnat (n : nat) : Q := inject_Z (Z.of_nat n).

Section Optimize.

(** [pd.to_datetime(series, errors='coerce')] is the library's parser:
    [None] stands for an exception, which the stage swallows. *)
Variable to_datetime : ColData -> option (list (option Z)).

Definition optimize_col (d : DataFrame) (col : string) : DataFrame :=
  let d1 :=
    if contains "fecha" (Text.lower col) || contains "date" (Text.lower col) then
      match get_col col d with
      | Some c =>
          match to_datetime c with
          | Some ts => set_col col (DateCol ts) d
          | None => d
          end
      | None => d
      end
    else d in
  match get_col col d1 with
  | Some (ObjCol xs) =>
      if (0 <? nrows d1) && Qltb (Qnat (nunique xs) / Qnat (nrows d1)) (1 # 10)
      then set_col col (CatCol xs) d1
      else d1
  | _ => d1
  end.

Definition optimize (p : State) : State :=
  if empty (df p) then p
  else
    let d := fold_left optimize_col (labels (df p)) (df p) in
    emit (Info MsgOptimized) (with_df d p).

(** The natural order of the stages, chained as in the usage example. *)
Definition run_all (threshold : Q) (method : string) (p : State) : Outcome :=
  match handle_outliers threshold method
          (impute_missing (handle_garbage (standardize p))) with
  | Returned p' => Returned (optimize p')
  | Raised e p' => Raised e p'
  end.

End Optimize.

End Pipeline.

(* ================================================================== *)
(** ** The vocabulary of the specification *)

Module Spec.

(** The quartiles of a column over its present values. *)
Definition quartiles (xs : list (option Q)) (Q1 Q3 : Q) : Prop :=
  Stats.quantile (1 # 4) xs = Some Q1 /\ Stats.quantile (3 # 4) xs = Some Q3.

Definition lower_bound (threshold Q1 Q3 : Q) : Q := (Q1 - threshold * (Q3 - Q1))%Q.
Definition upper_bound (threshold Q1 Q3 : Q) : Q := (Q3 + threshold * (Q3 - Q1))%Q.

(** A cell is missing or lies within the bounds. *)
Definition within_or_missing (lower upper : Q) (x : option Q) : Prop :=
  match x with
  | Some v => (lower <= v /\ v <= upper)%Q
  | None => True
  end.

(** A present value strictly outside the bounds. *)
Definition outlier (lower upper : Q) (x : option Q) : Prop :=
  match x with
  | Some v => (v < lower \/ upper < v)%Q
  | None => False
  end.

(** What capping does to one cell: below the lower bound it becomes the
    lower bound, above the upper bound the upper bound, and otherwise
    (missing included) it stays. *)
Definition capped (lower upper : Q) (x x' : option Q) : Prop :=
  match x with
  | Some v =>
      ((v < lower)%Q -> x' = Some lower)
      /\ ((upper < v)%Q -> x' = Some upper)
      /\ ((lower <= v /\ v <= upper)%Q -> x' = x)
  | None => x' = None
  end.

Section Frequency.
Variable A : Type.
Variable eqb : A -> A -> bool.
Variable leb : A -> A -> bool.

(** How often the value [v] occurs in a column. *)
Definition occurrences (v : A) (xs : list (option A)) : nat :=
  length (filter (fun x => match x with Some w => eqb v w | None => false end) xs).

(** [m] is the most frequent present value of the column, the one that
    sorts first among the values of maximal frequency; it is [None] exactly
    when the column has no present value. *)
Definition most_frequent (xs : list (option A)) (m : option A) : Prop :=
  match m with
  | Some v =>
      In (Some v) xs
      /\ (forall w, In (Some w) xs -> occurrences w xs <= occurrences v xs)
      /\ (forall w, In (Some w) xs -> occurrences w xs = occurrences v xs ->
                    leb v w = true)
  | None => forall x, In x xs -> x = None
  end.
End Frequency.

(** The column [xs'] is the column [xs] with every missing cell holding
    [m] and every present cell as it was. *)
Definition filled (A : Type) (m : option A) (xs xs' : list (option A)) : Prop :=
  Forall2 (fun x x' => match x with Some _ => x' = x | None => x' = m end) xs xs'.

(** What imputation does to a column: a numeric column is filled with its
    median, any other column with its most frequent value. *)
Definition imputed (c c' : Frame.ColData) : Prop :=
  match c with
  | Frame.NumCol xs =>
      exists xs', c' = Frame.NumCol xs' /\ filled (Stats.median xs) xs xs'
  | Frame.ObjCol xs =>
      exists xs' m, c' = Frame.ObjCol xs'
        /\ most_frequent String.eqb String.leb xs m /\ filled m xs xs'
  | Frame.DateCol xs =>
      exists xs' m, c' = Frame.DateCol xs'
        /\ most_frequent Z.eqb Z.leb xs m /\ filled m xs xs'
  | Frame.CatCol xs =>
      exists xs' m, c' = Frame.CatCol xs'
        /\ most_frequent String.eqb String.leb xs m /\ filled m xs xs'
  end.

(** The present cells of a column, whatever its dtype. *)
Definition present_cells (c : Frame.ColData) : list Frame.Value :=
  Stats.present (Frame.cells c).

(** The bound test of the ['remove'] method on row [i]: in every numeric
    column whose quartiles exist and differ, the cell of the row is missing
    or within the bounds of that column. *)
Definition row_survives (threshold : Q) (d : Frame.DataFrame) (i : nat) : Prop :=
  forall col xs Q1 Q3,
    Frame.get_col col d = Some (Frame.NumCol xs) ->
    quartiles xs Q1 Q3 ->
    ~ (Q3 - Q1 == 0)%Q ->
    within_or_missing (lower_bound threshold Q1 Q3) (upper_bound threshold Q1 Q3)
      (nth i xs None).

End Spec.

(* ================================================================== *)
(** ** Example frames *)

Module Examples.
Import Frame.

(** The frame that [_ingest] returns on failure: [pd.DataFrame()]. *)
Definition empty_frame : DataFrame := {| nrows := 0; columns := [] |}.

(** The frame of the usage example (lines 241-246) as [read_csv] gives it
    back: the absent date is NaN. *)
Definition demo_frame : DataFrame :=
  {| nrows := 5;
     columns :=
       [ mkColumn "Nombre "
           (ObjCol [Some "Juan"; Some "Ana"; Some "Juan"; Some " Pedro ";
                    Some "OutlierMan"]);
         mkColumn " Edad"
           (NumCol [Some (25 # 1); Some (30 # 1); Some (25 # 1); Some (120 # 1);
                    Some (1500 # 1)]%Q);
         mkColumn "Fecha Registro"
           (ObjCol [Some "2023-01-01"; Some "2023-02-01"; Some "2023-01-01";
                    None; Some "2023-05-01"]);
         mkColumn "Score"
           (NumCol [Some (21 # 2); None; Some (21 # 2); Some (5 # 1);
                    Some (1000 # 1)]%Q) ] |}.

(** Four ages, one of them extreme. *)
Definition ages_frame : DataFrame :=
  {| nrows := 4;
     columns :=
       [ mkColumn "name" (ObjCol [Some "Juan"; Some "Ana"; Some "Juan"; Some "Pedro"]);
         mkColumn "age"
           (NumCol [Some (25 # 1); Some (30 # 1); Some (25 # 1); Some (120 # 1)]%Q) ] |}.

(** One numeric column holding 1, 2, 3, 4, 5: Q1 = 2, Q3 = 4, IQR = 2. *)
Definition five : list (option Q) :=
  [Some (1 # 1); Some (2 # 1); Some (3 # 1); Some (4 # 1); Some (5 # 1)]%Q.

Definition five_frame : DataFrame :=
  {| nrows := 5; columns := [mkColumn "x" (NumCol five)] |}.

(** One numeric column whose label is a dot, a TAB and the letter x. *)
Definition tab_label : string := String "." (String (ascii_of_nat 9) "x").

Definition tab_frame : DataFrame :=
  {| nrows := 1; columns := [mkColumn tab_label (NumCol [Some (1 # 1)%Q])] |}.

(** A frame with a repeated row. *)
Definition repeated_row_frame : DataFrame :=
  {| nrows := 2; columns := [mkColumn "name" (ObjCol [Some "Ana"; Some "Ana"])] |}.

End Examples.

(* ================================================================== *)
(** ** The interpolation inside [Series.quantile] *)

Module Interpolation.

(** The value that [Stats.quantile] reads off the sorted present values
    [s] for the fraction [q]. *)
Definition interpolate (s : list Q) (q : Q) : Q :=
  let n := length s in
  let h := (q * inject_Z (Z.of_nat (n - 1)))%Q in
  let lo := Z.to_nat (Qfloor h) in
  let hi := Nat.min (lo + 1) (n - 1) in
  let frac := (h - inject_Z (Qfloor h))%Q in
  let a := nth lo s 0%Q in
  let b := nth hi s 0%Q in
  (a + (b - a) * frac)%Q.

End Interpolation.

(* ================================================================== *)
(** ** optimize seen from the column *)

Module Views.
Import Frame Pipeline.

(** The test on the column name (line 197). *)
Definition date_named (col : string) : bool :=
  contains "fecha" (Text.lower col) || contains "date" (Text.lower col).

(** The test [len(df) > 0 and nunique / len(df) < 0.1] (line 205) on a
    frame of [n] rows. *)
Definition low_cardinality (n : nat) (xs : list (option string)) : bool :=
  (0 <? n) && Qltb (Qnat (nunique xs) / Qnat n) (1 # 10).

(** A character that a cleaned label can hold: a word character or a
    whitespace character, but no plain space and no upper-case letter. *)
Definition normalized_char (c : ascii) : bool :=
  (Text.is_word c || Text.is_space c)
  && negb (Text.code c =? 32)
  && negb (Text.between 65 90 (Text.code c)).

Definition first_char (s : string) : option ascii :=
  match s with
  | EmptyString => None
  | String c _ => Some c
  end.

Fixpoint last_char (s : string) : option ascii :=
  match s with
  | EmptyString => None
  | String c EmptyString => Some c
  | String _ s' => last_char s'
  end.

(** A text without whitespace at either end. *)
Definition trimmed (s : string) : Prop :=
  (forall c, first_char s = Some c -> Text.is_space c = false)
  /\ (forall c, last_char s = Some c -> Text.is_space c = false).

(** [t] is [s] without the whitespace around it. *)
Definition stripped_of (s t : string) : Prop :=
  trimmed t
  /\ exists pre post,
       s = String.append pre (String.append t post)
       /\ Text.sall Text.is_space pre = true
       /\ Text.sall Text.is_space post = true.

Section Optimize.
Variable to_datetime : ColData -> option (list (option Z)).

(** What one turn of the loop of [optimize] makes of the column labelled
    [col] in a frame of [n] rows. *)
Definition optimize_data (n : nat) (col : string) (c : ColData) : ColData :=
  let c1 :=
    if date_named col then
      match to_datetime c with
      | Some ts => DateCol ts
      | None => c
      end
    else c in
  match c1 with
  | ObjCol xs => if low_cardinality n xs then CatCol xs else c1
  | _ => c1
  end.
End Optimize.

End Views.

(* ================================================================== *)
(** ** IO: ingestion, construction and export *)

Module IO.
Import Frame Pipeline.

(** The exception that [_ingest] catches at line 51. *)
Inductive LoadError : Type :=
| MissingQuery
| FileNotFound (source : string)
| UnsupportedFormat (ext : string)
| LoadRaised.

(** The exception that [export] catches at line 230. *)
Inductive ExportError : Type :=
| UnsupportedExport (format : string)
| WriteRaised.

Section World.

(** The libraries and the file system, as the two functions meet them; a
    result [None] stands for an exception raised by the library. *)
Variable Engine : Type.
Variable create_engine : string -> option Engine.
Variable read_sql : string -> Engine -> option DataFrame.
Variable path_exists : string -> bool.
Variable suffix : string -> string.
Variable read_csv : string -> option DataFrame.
Variable read_excel : string -> option DataFrame.
Variable read_json : string -> option DataFrame.
Variable read_parquet : string -> option DataFrame.

(** The dictionary [loaders] of lines 40-46. *)
Definition loaders : list (string * (string -> option DataFrame)) :=
  [ (".csv", read_csv);
    (".xlsx", read_excel);
    (".xls", read_excel);
    (".json", read_json);
    (".parquet", read_parquet) ].

Fixpoint lookup (A : Type) (key : string) (dict : list (string * A)) : option A :=
  match dict with
  | [] => None
  | (k, v) :: dict' => if String.eqb k key then Some v else lookup key dict'
  end.

(** The body of the [try] of [_ingest] (lines 29-50). *)
Definition ingest_body (source : string) (is_sql : bool) (query : option string)
    : DataFrame + LoadError :=
  if is_sql then
    match create_engine source with
    | None => inr LoadRaised
    | Some engine =>
        match query with
        | None => inr MissingQuery
        | Some q =>
            match read_sql q engine with
            | Some d => inl d
            | None => inr LoadRaised
            end
        end
    end
  else if negb (path_exists source) then inr (FileNotFound source)
  else
    let ext := Text.lower (suffix source) in
    match lookup ext loaders with
    | None => inr (UnsupportedFormat ext)
    | Some load =>
        match load source with
        | Some d => inl d
        | None => inr LoadRaised
        end
    end.

(** [_ingest] (lines 26-53): the frame, and the error sent to the logger
    when the body raised. *)
Definition _ingest (source : string) (is_sql : bool) (query : option string)
    : DataFrame * option LoadError :=
  match ingest_body source is_sql query with
  | inl d => (d, None)
  | inr e => ({| nrows := 0; columns := [] |}, Some e)
  end.

(** [UltimateDataPipeline(source, is_sql, query)] (lines 18-24). *)
Definition construct (source : string) (is_sql : bool) (query : option string)
    : State * option LoadError :=
  let (d, err) := _ingest source is_sql query in (init d, err).

(** Where [export] writes. *)
Inductive Sink : Type :=
| CsvFile (path : string)
| ExcelFile (path : string)
| SqlTable (engine : Engine) (table : string).

(** What [export] does to the outside: the calls of a writer, with the
    frame handed over, and the records sent to the logger. *)
Inductive ExportEvent : Type :=
| WarnedEmpty
| Wrote (sink : Sink) (d : DataFrame)
| LoggedExported (path : string)
| LoggedExportError (e : ExportError).

(** [to_csv], [to_excel] and [to_sql]: [false] when the writer raises. *)
Variable write : Sink -> DataFrame -> bool.

Definition attempt (sink : Sink) (path : string) (d : DataFrame) : list ExportEvent :=
  if write sink d then [Wrote sink d; LoggedExported path]
  else [Wrote sink d; LoggedExportError WriteRaised].

(** [export] (lines 211-231). *)
Definition export (path : string) (format : string) (p : State) : list ExportEvent :=
  if empty (df p) then [WarnedEmpty]
  else if String.eqb format "csv" then attempt (CsvFile path) path (df p)
  else if String.eqb format "excel" then attempt (ExcelFile path) path (df p)
  else if String.eqb format "sql" then
    match create_engine path with
    | Some engine => attempt (SqlTable engine "data_limpia") path (df p)
    | None => [LoggedExportError WriteRaised]
    end
  else [LoggedExportError (UnsupportedExport format)].

End World.

End IO.

(* ================================================================== *)
(** ** Facts about the text functions *)

Unset Implicit Arguments.

Module TextFacts.
Import Text.

Ltac by_cases_on c :=
  destruct c as [[] [] [] [] [] [] [] []]; vm_compute; try reflexivity;
  try discriminate; auto.

Lemma chain_char_stable c :
  kept_by_regex (space_to_underscore (lower_char c)) = true ->
  stable (space_to_underscore (lower_char c)) = true.
Proof. by_cases_on c. Qed.

Lemma chain_char_no_space c :
  plain c = true ->
  is_space (space_to_underscore (lower_char c)) = false.
Proof. by_cases_on c. Qed.

Lemma stable_lower c : stable c = true -> lower_char c = c.
Proof. by_cases_on c. Qed.

Lemma stable_underscore c : stable c = true -> space_to_underscore c = c.
Proof. by_cases_on c. Qed.

Lemma stable_kept c : stable c = true -> kept_by_regex c = true.
Proof. by_cases_on c. Qed.

Lemma sall_impl (p q : ascii -> bool) s :
  (forall c, p c = true -> q c = true) -> sall p s = true -> sall q s = true.
Proof.
  intros Hpq; induction s as [|c s IH]; simpl; auto.
  rewrite !andb_true_iff; intros [Hc Hs]; auto.
Qed.

Lemma sall_lstrip p s : sall p s = true -> sall p (lstrip s) = true.
Proof.
  induction s as [|c s IH]; simpl; auto.
  rewrite andb_true_iff; intros [Hc Hs].
  destruct (is_space c); simpl; auto.
  now rewrite Hc, Hs.
Qed.

Lemma sall_rstrip p s : sall p s = true -> sall p (rstrip s) = true.
Proof.
  induction s as [|c s IH]; simpl; auto.
  rewrite andb_true_iff; intros [Hc Hs].
  specialize (IH Hs).
  destruct (rstrip s) as [|c' r].
  - destruct (is_space c); simpl; auto. now rewrite Hc.
  - change (p c && sall p (String c' r) = true). now rewrite Hc, IH.
Qed.

Lemma sall_strip p s : sall p s = true -> sall p (strip s) = true.
Proof. intros; unfold strip; now apply sall_rstrip, sall_lstrip. Qed.

Lemma smap_fixed (p : ascii -> bool) f s :
  (forall c, p c = true -> f c = c) -> sall p s = true -> smap f s = s.
Proof.
  intros Hf; induction s as [|c s IH]; simpl; auto.
  rewrite andb_true_iff; intros [Hc Hs].
  now rewrite (Hf c Hc), IH.
Qed.

Lemma sfilter_fixed (p q : ascii -> bool) s :
  (forall c, p c = true -> q c = true) -> sall p s = true -> sfilter q s = s.
Proof.
  intros Hq; induction s as [|c s IH]; simpl; auto.
  rewrite andb_true_iff; intros [Hc Hs].
  now rewrite (Hq c Hc), IH.
Qed.

Lemma sall_smap (p q : ascii -> bool) f s :
  (forall c, p c = true -> q (f c) = true) ->
  sall p s = true -> sall q (smap f s) = true.
Proof.
  intros Hf; induction s as [|c s IH]; simpl; auto.
  rewrite !andb_true_iff; intros [Hc Hs]; auto.
Qed.

Lemma sall_sfilter (p q : ascii -> bool) s :
  sall p s = true -> sall p (sfilter q s) = true.
Proof.
  induction s as [|c s IH]; simpl; auto.
  rewrite andb_true_iff; intros [Hc Hs].
  destruct (q c); simpl; auto. now rewrite Hc, IH.
Qed.

Lemma sall_sfilter_self (q : ascii -> bool) s : sall q (sfilter q s) = true.
Proof.
  induction s as [|c s IH]; simpl; auto.
  destruct (q c) eqn:E; simpl; auto. now rewrite E.
Qed.

(** Without leading or trailing whitespace there is nothing to strip. *)
Lemma lstrip_no_space s :
  sall (fun c => negb (is_space c)) s = true -> lstrip s = s.
Proof.
  destruct s as [|c s]; simpl; auto.
  rewrite andb_true_iff; intros [Hc _].
  now destruct (is_space c).
Qed.

Lemma rstrip_no_space s :
  sall (fun c => negb (is_space c)) s = true -> rstrip s = s.
Proof.
  induction s as [|c s IH]; simpl; auto.
  rewrite andb_true_iff; intros [Hc Hs].
  rewrite (IH Hs). destruct s; auto.
  now destruct (is_space c).
Qed.

Lemma strip_no_space s :
  sall (fun c => negb (is_space c)) s = true -> strip s = s.
Proof.
  intros H; unfold strip. rewrite (lstrip_no_space _ H). now apply rstrip_no_space.
Qed.

Lemma rstrip_idem s : rstrip (rstrip s) = rstrip s.
Proof.
  induction s as [|c s IH]; simpl; auto.
  destruct (rstrip s) as [|c' r] eqn:E.
  - destruct (is_space c) eqn:Ec; simpl; auto. now rewrite Ec.
  - change (rstrip (String c (String c' r)) = String c (String c' r)).
    simpl rstrip at 1. simpl in IH.
    destruct (rstrip r) as [|c'' r'] eqn:Er.
    + destruct (is_space c') eqn:Ec'; [discriminate IH|].
      now inversion IH.
    + now inversion IH.
Qed.

(** The head of a string survives [rstrip] when it is not a space. *)
Lemma rstrip_head c s :
  is_space c = false -> exists r, rstrip (String c s) = String c r.
Proof.
  intros Hc; simpl. destruct (rstrip s) as [|c' r].
  - rewrite Hc. now exists EmptyString.
  - now exists (String c' r).
Qed.

Lemma lstrip_head s :
  lstrip s = EmptyString \/ exists c r, lstrip s = String c r /\ is_space c = false.
Proof.
  induction s as [|c s IH]; simpl; auto.
  destruct (is_space c) eqn:E; auto.
  right; now exists c, s.
Qed.

Lemma strip_idem s : strip (strip s) = strip s.
Proof.
  unfold strip.
  destruct (lstrip_head s) as [E | (c & r & E & Hc)]; rewrite E.
  - reflexivity.
  - destruct (rstrip_head c r Hc) as [r' Er]. rewrite Er.
    simpl lstrip. rewrite Hc. rewrite <- Er. apply rstrip_idem.
Qed.

Lemma clean_name_stable s : sall stable (clean_name s) = true.
Proof.
  unfold clean_name, lower.
  induction (strip s) as [|c t IH]; simpl; auto.
  destruct (kept_by_regex (space_to_underscore (lower_char c))) eqn:E; auto.
  simpl. now rewrite (chain_char_stable c E), IH.
Qed.

(** A second pass of the name chain can only strip. *)
Lemma clean_name_twice s : clean_name (clean_name s) = strip (clean_name s).
Proof.
  pose proof (sall_strip _ _ (clean_name_stable s)) as H.
  unfold clean_name at 1. unfold lower.
  rewrite (smap_fixed stable lower_char _ stable_lower H).
  rewrite (smap_fixed stable space_to_underscore _ stable_underscore H).
  now rewrite (sfilter_fixed stable kept_by_regex _ stable_kept H).
Qed.

Lemma clean_name_no_space s :
  only_plain_spaces s = true ->
  sall (fun c => negb (is_space c)) (clean_name s) = true.
Proof.
  intros H. unfold clean_name, lower.
  apply sall_sfilter.
  pose proof (sall_strip _ _ H) as H'.
  induction (strip s) as [|c t IH]; simpl; auto.
  simpl in H'. apply andb_true_iff in H' as [Hc Ht].
  rewrite (chain_char_no_space c Hc). simpl. auto.
Qed.

Lemma clean_name_idem s :
  only_plain_spaces s = true -> clean_name (clean_name s) = clean_name s.
Proof.
  intros H. rewrite clean_name_twice.
  apply strip_no_space, clean_name_no_space, H.
Qed.

End TextFacts.

(* ================================================================== *)
(** ** Facts about frames: label access and loops over labels *)

Module FrameFacts.
Import Frame.

Lemma fold_left_ext (A B : Type) (f g : A -> B -> A) :
  (forall a b, f a b = g a b) ->
  forall l a, fold_left f l a = fold_left g l a.
Proof.
  intros H l; induction l as [|b l IH]; simpl; intros a; auto.
  rewrite H. apply IH.
Qed.

Lemma frame_eta d : {| nrows := nrows d; columns := columns d |} = d.
Proof. now destruct d. Qed.

(** With distinct labels, the search by label finds the one column that
    carries the label, or none does. *)
Lemma find_label_unique col cols :
  NoDup (map label cols) ->
  match find (fun c => String.eqb (label c) col) cols with
  | Some c0 => label c0 = col /\ forall c, In c cols -> label c = col -> c = c0
  | None => forall c, In c cols -> label c <> col
  end.
Proof.
  induction cols as [|c0 cols IH]; simpl; intros Hnd.
  - intros c [].
  - inversion Hnd as [|? ? Hnotin Hnd']; subst.
    destruct (String.eqb_spec (label c0) col) as [E|E].
    + split; auto. intros c [->|Hin] Hc; auto.
      exfalso; apply Hnotin. rewrite E, <- Hc. now apply in_map.
    + specialize (IH Hnd').
      destruct (find _ cols) as [c1|].
      * destruct IH as [H1 H2]; split; auto.
        intros c [->|Hin] Hc; [contradiction | auto].
      * intros c [->|Hin]; auto.
Qed.

Lemma get_col_unique d c :
  unique_labels d -> In c (columns d) -> get_col (label c) d = Some (data c).
Proof.
  intros Hnd Hin. unfold get_col.
  pose proof (find_label_unique (label c) (columns d) Hnd) as H.
  destruct (find _ (columns d)) as [c0|].
  - destruct H as [_ H]. now rewrite (H c Hin eq_refl).
  - now elim (H c Hin).
Qed.

Section Foreach.
Variable guard : ColData -> bool.
Variable f : ColData -> ColData.

Lemma visited_label c : label (visited guard f c) = label c.
Proof. unfold visited; now destruct (guard (data c)). Qed.

Lemma visit_one d col :
  unique_labels d ->
  visit guard f d col =
  {| nrows := nrows d;
     columns := map (fun c => if String.eqb (label c) col
                              then visited guard f c else c) (columns d) |}.
Proof.
  intros Hnd. unfold visit, get_col.
  pose proof (find_label_unique col (columns d) Hnd) as H.
  destruct (find _ (columns d)) as [c0|]; simpl.
  - destruct H as [H1 H2].
    destruct (guard (data c0)) eqn:G.
    + unfold set_col; f_equal. apply map_ext_in; intros c Hin.
      destruct (String.eqb_spec (label c) col) as [E|E]; auto.
      rewrite (H2 c Hin E). unfold visited. now rewrite G, H1.
    + rewrite <- (frame_eta d) at 1. f_equal.
      rewrite <- (map_id (columns d)) at 1. apply map_ext_in; intros c Hin.
      destruct (String.eqb_spec (label c) col) as [E|E]; auto.
      rewrite (H2 c Hin E). unfold visited. now rewrite G.
  - rewrite <- (frame_eta d) at 1. f_equal.
    rewrite <- (map_id (columns d)) at 1. apply map_ext_in; intros c Hin.
    destruct (String.eqb_spec (label c) col) as [E|E]; auto.
    now elim (H c Hin).
Qed.

Lemma visit_all names : forall d,
  NoDup names -> unique_labels d ->
  fold_left (visit guard f) names d =
  {| nrows := nrows d; columns := visit_columns guard f names (columns d) |}.
Proof.
  induction names as [|col names IH]; intros d Hn Hd; simpl.
  - unfold visit_columns; simpl. rewrite map_id. now rewrite frame_eta.
  - inversion Hn as [|? ? Hnotin Hn']; subst.
    rewrite (visit_one d col Hd).
    rewrite IH; auto.
    + simpl. f_equal. unfold visit_columns. rewrite map_map.
      apply map_ext; intros c.
      destruct (String.eqb_spec (label c) col) as [E|E]; simpl.
      * rewrite visited_label.
        destruct (String.eqb_spec (label c) col) as [_|N]; [|contradiction].
        destruct (existsb (String.eqb (label c)) names) eqn:Ex; auto.
        exfalso. apply existsb_exists in Ex as (x & Hx & Hlx).
        apply String.eqb_eq in Hlx. apply Hnotin. congruence.
      * destruct (String.eqb_spec (label c) col) as [N|_]; [contradiction|].
        reflexivity.
    + unfold unique_labels, labels; simpl. rewrite map_map.
      erewrite map_ext; [exact Hd|].
      intros c; simpl. destruct (String.eqb (label c) col); auto.
      apply visited_label.
Qed.
End Foreach.

Lemma existsb_eqb_In x names :
  existsb (String.eqb x) names = true <-> In x names.
Proof.
  rewrite existsb_exists. split.
  - intros (y & Hy & E). apply String.eqb_eq in E. now subst.
  - intros H. exists x. split; auto. apply String.eqb_refl.
Qed.

(** The labels chosen by [select_dtypes] are distinct and name exactly the
    columns of that dtype. *)
Lemma select_dtypes_NoDup p d : unique_labels d -> NoDup (select_dtypes p d).
Proof.
  unfold unique_labels, labels, select_dtypes.
  induction (columns d) as [|c cols IH]; simpl; intros H; [constructor|].
  inversion H as [|? ? Hnotin H']; subst.
  destruct (p (data c)); simpl; auto.
  constructor; auto.
  intros Hin. apply Hnotin.
  apply in_map_iff in Hin as (c' & E & Hc'). apply filter_In in Hc' as [Hc' _].
  rewrite <- E. now apply in_map.
Qed.

Lemma select_dtypes_mem p d c :
  unique_labels d -> In c (columns d) ->
  existsb (String.eqb (label c)) (select_dtypes p d) = p (data c).
Proof.
  intros Hnd Hin.
  destruct (p (data c)) eqn:E.
  - apply existsb_eqb_In. unfold select_dtypes. apply in_map.
    apply filter_In; auto.
  - destruct (existsb _ _) eqn:Ex; auto.
    apply existsb_eqb_In in Ex. unfold select_dtypes in Ex.
    apply in_map_iff in Ex as (c' & El & Hc'). apply filter_In in Hc' as [Hc' Hp].
    assert (c' = c); [|subst; congruence].
    pose proof (find_label_unique (label c) (columns d) Hnd) as H.
    destruct (find _ (columns d)) as [c0|].
    + destruct H as [_ H]. rewrite (H c Hin eq_refl). now apply H.
    + now elim (H c Hin).
Qed.

Lemma labels_mem d c :
  In c (columns d) -> existsb (String.eqb (label c)) (labels d) = true.
Proof. intros; apply existsb_eqb_In. now apply in_map. Qed.

End FrameFacts.

(* ================================================================== *)
(** ** Facts about boolean indexing and rows *)

Module RowFacts.
Import Frame.

Lemma keep_by_map (A B : Type) (f : A -> B) mask : forall xs,
  keep_by mask (map f xs) = map f (keep_by mask xs).
Proof.
  induction mask as [|b mask IH]; intros [|x xs]; simpl; auto.
  destruct b; simpl; now rewrite IH.
Qed.

Lemma keep_by_length (A B : Type) mask : forall (xs : list A) (ys : list B),
  length xs = length ys -> length (keep_by mask xs) = length (keep_by mask ys).
Proof.
  induction mask as [|b mask IH]; intros [|x xs] [|y ys]; simpl; intros H;
    try discriminate; auto.
  destruct b; simpl; auto.
Qed.

Lemma keep_by_length_le (A : Type) mask : forall (xs : list A),
  length (keep_by mask xs) <= length xs.
Proof.
  induction mask as [|b mask IH]; intros [|x xs]; simpl; try lia.
  specialize (IH xs). destruct b; simpl; lia.
Qed.

Lemma keep_by_repeat (A : Type) (x : A) mask : forall n,
  keep_by mask (repeat x n) = repeat x (length (keep_by mask (repeat x n))).
Proof.
  induction mask as [|b mask IH]; intros [|n]; simpl; auto.
  destruct b; simpl; now rewrite <- IH.
Qed.

Lemma keep_by_zip_cons mask : forall col rs,
  keep_by mask (zip_cons col rs) = zip_cons (keep_by mask col) (keep_by mask rs).
Proof.
  induction mask as [|b mask IH]; intros col rs; [reflexivity|].
  destruct col as [|c col], rs as [|r rs]; simpl; auto.
  - destruct b; auto. now destruct (keep_by mask col).
  - destruct b; simpl; now rewrite IH.
Qed.

Lemma cells_select_data mask d :
  cells (select_data mask d) = keep_by mask (cells d).
Proof. destruct d; simpl; now rewrite keep_by_map. Qed.

(** The rows of [df[mask]] are the rows of [df] that the mask keeps. *)
Lemma rows_select_rows mask d :
  rows (select_rows mask d) = keep_by mask (rows d).
Proof.
  unfold rows, select_rows; simpl. rewrite map_map; simpl.
  induction (columns d) as [|c cols IH]; simpl.
  - rewrite keep_by_repeat. f_equal. apply keep_by_length.
    now rewrite repeat_length, length_seq.
  - now rewrite keep_by_zip_cons, cells_select_data, IH.
Qed.

Lemma get_col_in col d c :
  get_col col d = Some c -> exists c0, In c0 (columns d) /\ label c0 = col /\ data c0 = c.
Proof.
  unfold get_col. destruct (find _ (columns d)) as [c0|] eqn:E; simpl; [|discriminate].
  intros H; inversion H; subst. apply find_some in E as [Hin Hl].
  apply String.eqb_eq in Hl. now exists c0.
Qed.

Lemma get_col_len col d c :
  well_formed d -> get_col col d = Some c -> col_len c = nrows d.
Proof.
  intros Hwf H. apply get_col_in in H as (c0 & Hin & _ & <-).
  unfold well_formed in Hwf. rewrite Forall_forall in Hwf. now apply Hwf.
Qed.

Lemma mask_and_length m1 : forall m2,
  length m1 = length m2 -> length (mask_and m1 m2) = length m1.
Proof.
  induction m1 as [|a m1 IH]; intros [|b m2]; simpl; intros H; try discriminate; auto.
Qed.

Lemma mask_and_nth m1 : forall m2 i,
  length m1 = length m2 ->
  nth i (mask_and m1 m2) false = nth i m1 false && nth i m2 false.
Proof.
  induction m1 as [|a m1 IH]; intros [|b m2] i; simpl; intros H; try discriminate.
  - now destruct i.
  - destruct i; auto.
Qed.

(** Cells kept by a mask, by position. *)
Lemma keep_by_Forall (A : Type) (P : A -> Prop) (dflt : A) mask : forall xs,
  length mask = length xs ->
  (forall i, i < length xs -> nth i mask false = true -> P (nth i xs dflt)) ->
  Forall P (keep_by mask xs).
Proof.
  induction mask as [|b mask IH]; intros [|x xs]; simpl; intros Hlen H;
    try discriminate; auto.
  assert (Hrest : Forall P (keep_by mask xs)).
  { apply IH; [lia|]. intros i Hi Hm. apply (H (S i)); [lia | exact Hm]. }
  destruct b; auto. constructor; auto.
  apply (H 0); [lia | reflexivity].
Qed.

End RowFacts.

(* ================================================================== *)
(** ** standardize *)

Module StandardizeFacts.
Import Frame Pipeline FrameFacts.

Lemma standardize_col_visit d col :
  standardize_col d col = visit is_object standardize_data d col.
Proof.
  unfold standardize_col, visit.
  destruct (get_col col d) as [[xs|xs|xs|xs]|]; reflexivity.
Qed.

Lemma visited_standardize c :
  (if is_object (data c) then visited is_object standardize_data c else c)
  = mkColumn (label c) (standardize_data (data c)).
Proof.
  unfold visited. destruct c as [l [xs|xs|xs|xs]]; reflexivity.
Qed.

(** On a non-empty frame whose cleaned labels are distinct, the stage
    renames every column and trims every object column. *)
Lemma standardize_df p :
  empty (df p) = false ->
  NoDup (map Text.clean_name (labels (df p))) ->
  df (standardize p) =
  {| nrows := nrows (df p);
     columns := map (fun c => mkColumn (Text.clean_name (label c))
                                       (standardize_data (data c)))
                    (columns (df p)) |}.
Proof.
  intros Hne Hnd. unfold standardize. rewrite Hne. simpl.
  set (d1 := rename_columns Text.clean_name (df p)).
  assert (Hd1 : unique_labels d1).
  { unfold unique_labels, labels, d1; simpl. rewrite map_map; simpl.
    unfold labels in Hnd. now rewrite map_map in Hnd. }
  rewrite (fold_left_ext _ _ _ _ standardize_col_visit).
  rewrite visit_all; auto using select_dtypes_NoDup.
  f_equal. unfold visit_columns.
  transitivity (map (fun c => mkColumn (label c) (standardize_data (data c)))
                    (columns d1)).
  - apply map_ext_in; intros c Hin.
    rewrite select_dtypes_mem; auto. apply visited_standardize.
  - unfold d1; simpl. now rewrite map_map.
Qed.

Lemma strip_cells_idem xs : strip_cells (strip_cells xs) = strip_cells xs.
Proof.
  unfold strip_cells. rewrite map_map. apply map_ext; intros x; simpl.
  now rewrite TextFacts.strip_idem.
Qed.

Lemma standardize_data_idem d :
  standardize_data (standardize_data d) = standardize_data d.
Proof. destruct d; simpl; auto. now rewrite strip_cells_idem. Qed.

Lemma standardize_empty p : empty (df (standardize p)) = empty (df p).
Proof.
  unfold standardize. destruct (empty (df p)) eqn:E; simpl; auto.
  rewrite <- E.
  assert (H : forall l d, nrows (fold_left standardize_col l d) = nrows d
                        /\ ncols (fold_left standardize_col l d) = ncols d).
  { induction l as [|a l IH]; simpl; auto. intros d.
    destruct (IH (standardize_col d a)) as [-> ->].
    unfold standardize_col.
    destruct (get_col a d) as [[xs|xs|xs|xs]|]; auto.
    unfold ncols; simpl. now rewrite length_map. }
  unfold empty.
  destruct (H (select_dtypes is_object (rename_columns Text.clean_name (df p)))
              (rename_columns Text.clean_name (df p))) as [-> ->].
  unfold ncols; simpl. now rewrite length_map.
Qed.

Lemma standardize_report p : report (standardize p) = report p.
Proof. unfold standardize. now destruct (empty (df p)). Qed.

Lemma standardize_skip p : empty (df p) = true -> df (standardize p) = df p.
Proof. intros H. unfold standardize. now rewrite H. Qed.

End StandardizeFacts.

(* ================================================================== *)
(** ** handle_outliers *)

Module OutlierFacts.
Import Frame Pipeline FrameFacts Spec.

Lemma Qltb_lt a b : Qltb a b = true <-> (a < b)%Q.
Proof.
  unfold Qltb. rewrite negb_true_iff. split; intros H.
  - apply Qnot_le_lt. intros Hle. apply Qle_bool_iff in Hle. congruence.
  - destruct (Qle_bool b a) eqn:E; auto.
    apply Qle_bool_iff in E. now apply Qle_not_lt in E.
Qed.

Lemma Qltb_ge a b : Qltb a b = false <-> (b <= a)%Q.
Proof.
  unfold Qltb. rewrite negb_false_iff. apply Qle_bool_iff.
Qed.

Lemma fence_order t a b :
  (- (1 # 2) <= t -> 0 < b - a -> a - t * (b - a) <= b + t * (b - a))%Q.
Proof. intros. nra. Qed.

Lemma fence_cross t a b :
  (t < - (1 # 2) -> 0 < b - a -> b + t * (b - a) < a - t * (b - a))%Q.
Proof. intros. nra. Qed.

(** Reading a column of a frame whose columns were all mapped. *)
Lemma get_col_mapped g col d d' :
  columns d' = map (fun c => mkColumn (label c) (g (data c))) (columns d) ->
  get_col col d' = option_map g (get_col col d).
Proof.
  unfold get_col. intros ->.
  induction (columns d) as [|c cols IH]; simpl; auto.
  destruct (String.eqb (label c) col); simpl; auto.
Qed.

Lemma labels_mapped g d d' :
  columns d' = map (fun c => mkColumn (label c) (g (data c))) (columns d) ->
  labels d' = labels d.
Proof. unfold labels. intros ->. rewrite map_map. now apply map_ext. Qed.

(* -------------------------------------------------------------- *)
(** *** cap *)

Lemma cap_col_visit t d n col :
  fst (cap_col t (d, n) col) = visit (cap_guard t) (cap_column t) d col.
Proof.
  unfold cap_col, visit, cap_guard, cap_column.
  destruct (get_col col d) as [[xs|xs|xs|xs]|]; auto.
  destruct (cap_data t xs); auto.
Qed.

Lemma cap_loop t names : forall d n,
  fst (fold_left (cap_col t) names (d, n))
  = fold_left (visit (cap_guard t) (cap_column t)) names d.
Proof.
  induction names as [|col names IH]; intros d n; [reflexivity|].
  cbn [fold_left].
  pose proof (cap_col_visit t d n col) as H.
  destruct (cap_col t (d, n) col) as [d' n']. simpl in H.
  rewrite <- H. apply IH.
Qed.

Lemma visited_cap t c :
  (if is_number (data c) then visited (cap_guard t) (cap_column t) c else c)
  = mkColumn (label c) (cap_column t (data c)).
Proof.
  unfold visited, cap_guard, cap_column.
  destruct c as [l [xs|xs|xs|xs]]; simpl; auto.
  destruct (cap_data t xs); auto.
Qed.

(** The ['cap'] branch on a non-empty frame with distinct labels. *)
Lemma handle_outliers_cap t p :
  empty (df p) = false -> unique_labels (df p) ->
  exists q, handle_outliers t "cap" p = Returned q
    /\ df q = {| nrows := nrows (df p);
                 columns := map (fun c => mkColumn (label c) (cap_column t (data c)))
                                (columns (df p)) |}.
Proof.
  intros Hne Hnd. unfold handle_outliers. rewrite Hne.
  change (String.eqb "cap" "remove") with false.
  change (String.eqb "cap" "cap") with true. cbv iota.
  pose proof (cap_loop t (select_dtypes is_number (df p)) (df p) 0) as H.
  destruct (fold_left (cap_col t) _ _) as [d n]. simpl in H.
  rewrite visit_all in H; auto using select_dtypes_NoDup.
  assert (Hd : d = {| nrows := nrows (df p);
                      columns := map (fun c => mkColumn (label c) (cap_column t (data c)))
                                     (columns (df p)) |}).
  { rewrite H. f_equal. unfold visit_columns.
    apply map_ext_in; intros c Hin.
    rewrite select_dtypes_mem; auto. apply visited_cap. }
  destruct (0 <? n); eexists; split; try reflexivity; exact Hd.
Qed.

Lemma cap_values_capped lb ub xs :
  (lb <= ub)%Q -> Forall2 (capped lb ub) xs (cap_values lb ub xs).
Proof.
  intros Hle. unfold cap_values. rewrite map_map.
  induction xs as [|x xs IH]; simpl; constructor; auto.
  destruct x as [v|]; simpl; auto.
  destruct (Qltb v lb) eqn:E1.
  - apply Qltb_lt in E1.
    destruct (Qltb ub lb) eqn:E2; [apply Qltb_lt in E2; lra|].
    repeat split; auto; intros; lra.
  - apply Qltb_ge in E1.
    destruct (Qltb ub v) eqn:E2.
    + apply Qltb_lt in E2. repeat split; auto; intros; lra.
    + apply Qltb_ge in E2. repeat split; auto; intros; lra.
Qed.

Lemma cap_values_within lb ub xs :
  (lb <= ub)%Q -> Forall (within_or_missing lb ub) (cap_values lb ub xs).
Proof.
  intros Hle. unfold cap_values. rewrite map_map.
  induction xs as [|x xs IH]; simpl; constructor; auto.
  destruct x as [v|]; simpl; auto.
  destruct (Qltb v lb) eqn:E1.
  - destruct (Qltb ub lb) eqn:E2; [apply Qltb_lt in E2; lra|].
    simpl. lra.
  - apply Qltb_ge in E1.
    destruct (Qltb ub v) eqn:E2; simpl.
    + lra.
    + apply Qltb_ge in E2. lra.
Qed.

Lemma no_outliers lb ub xs :
  existsb (outside lb ub) xs = false ->
  Forall2 (capped lb ub) xs xs /\ Forall (within_or_missing lb ub) xs.
Proof.
  induction xs as [|x xs IH]; simpl; intros H.
  - split; constructor.
  - apply orb_false_iff in H as [Hx Hxs]. destruct (IH Hxs) as [IH1 IH2].
    split; constructor; auto.
    + destruct x as [v|]; simpl in *; auto.
      apply orb_false_iff in Hx as [H1 H2].
      apply Qltb_ge in H1, H2. repeat split; auto; intros; lra.
    + destruct x as [v|]; simpl in *; auto.
      apply orb_false_iff in Hx as [H1 H2].
      apply Qltb_ge in H1, H2. lra.
Qed.

(** What the ['cap'] branch does to one numeric column. *)
Lemma cap_column_spec t xs :
  exists xs', cap_column t (NumCol xs) = NumCol xs'
    /\ forall Q1 Q3, quartiles xs Q1 Q3 ->
         ((Q3 - Q1 == 0)%Q -> xs' = xs)
         /\ ((lower_bound t Q1 Q3 <= upper_bound t Q1 Q3)%Q ->
             ~ (Q3 - Q1 == 0)%Q ->
             Forall2 (capped (lower_bound t Q1 Q3) (upper_bound t Q1 Q3)) xs xs'
             /\ Forall (within_or_missing (lower_bound t Q1 Q3) (upper_bound t Q1 Q3)) xs').
Proof.
  unfold cap_column, cap_data, quartiles, lower_bound, upper_bound.
  destruct (Stats.quantile (1 # 4) xs) as [q1|];
    [destruct (Stats.quantile (3 # 4) xs) as [q3|]|].
  2,3: exists xs; split; auto; intros Q1 Q3 [H1 H3]; discriminate.
  destruct (Qeq_bool (q3 - q1) 0) eqn:E.
  - exists xs; split; auto. intros Q1 Q3 [H1 H3].
    inversion H1; inversion H3; subst. split; auto.
    intros _ Hn. apply Qeq_bool_iff in E. contradiction.
  - destruct (existsb _ xs) eqn:Ex.
    + eexists; split; [reflexivity|]. intros Q1 Q3 [H1 H3].
      inversion H1; inversion H3; subst. split.
      * intros H0. apply Qeq_bool_neq in E. contradiction.
      * intros Hle _. split;
          [now apply cap_values_capped | now apply cap_values_within].
    + exists xs; split; auto. intros Q1 Q3 [H1 H3].
      inversion H1; inversion H3; subst. split; auto.
      intros _ _. now apply no_outliers.
Qed.

(* -------------------------------------------------------------- *)
(** *** remove *)

Lemma sort_nil (A : Type) (leb : A -> A -> bool) l : Stats.sort leb l = [] -> l = [].
Proof.
  destruct l as [|x l]; simpl; auto.
  destruct (Stats.sort leb l) as [|y s']; simpl; [discriminate|].
  destruct (leb x y); discriminate.
Qed.

(** A NaN quantile means that the column has no present value. *)
Lemma quantile_none q xs : Stats.quantile q xs = None -> Stats.present xs = [].
Proof.
  unfold Stats.quantile. intros H. apply sort_nil with (leb := Qle_bool).
  destruct (Stats.sort Qle_bool (Stats.present xs)); [reflexivity | discriminate].
Qed.

Lemma present_nil_nth (A : Type) (xs : list (option A)) : forall i,
  Stats.present xs = [] -> nth i xs None = None.
Proof.
  induction xs as [|[v|] xs IH]; intros [|i]; simpl; intros H;
    try discriminate; auto.
Qed.

Lemma within_or_missing_iff lb ub x :
  within lb ub x || negb (notna x) = true <-> within_or_missing lb ub x.
Proof.
  destruct x as [v|]; simpl; [|tauto].
  rewrite orb_false_r, andb_true_iff, !Qle_bool_iff. tauto.
Qed.

Lemma remove_cell_ok_iff t xs i :
  remove_cell_ok t xs (nth i xs None) = true <->
  (forall Q1 Q3, quartiles xs Q1 Q3 -> ~ (Q3 - Q1 == 0)%Q ->
     within_or_missing (lower_bound t Q1 Q3) (upper_bound t Q1 Q3) (nth i xs None)).
Proof.
  unfold remove_cell_ok, quartiles, lower_bound, upper_bound.
  destruct (Stats.quantile (1 # 4) xs) as [q1|] eqn:E1;
    [destruct (Stats.quantile (3 # 4) xs) as [q3|] eqn:E3|].
  - destruct (Qeq_bool (q3 - q1) 0) eqn:E.
    + apply Qeq_bool_iff in E. split; auto.
      intros _ Q1 Q3 [H1 H3] Hn. inversion H1; inversion H3; subst. contradiction.
    + apply Qeq_bool_neq in E. rewrite within_or_missing_iff. split.
      * intros H Q1 Q3 [H1 H3] _. inversion H1; inversion H3; subst. exact H.
      * intros H. apply H; auto.
  - rewrite (present_nil_nth _ xs i (quantile_none _ xs E3)). simpl.
    split; auto.
  - rewrite (present_nil_nth _ xs i (quantile_none _ xs E1)). simpl.
    split; auto.
Qed.

Lemma nth_map_default (A B : Type) (f : A -> B) (a : A) (b : B) l : forall i,
  i < length l -> nth i (map f l) b = f (nth i l a).
Proof.
  induction l as [|x l IH]; simpl; intros i Hi; [lia|].
  destruct i; auto. apply IH. lia.
Qed.

(** One turn of the loop narrows the mask by the test of its column. *)
Lemma remove_col_spec t d mask col :
  well_formed d -> length mask = nrows d ->
  length (remove_col t d mask col) = nrows d
  /\ forall i, i < nrows d ->
       nth i (remove_col t d mask col) false
       = nth i mask false && remove_row_ok t d i col.
Proof.
  intros Hwf Hlen. unfold remove_col, remove_row_ok, remove_cell_ok.
  destruct (get_col col d) as [[xs|xs|xs|xs]|] eqn:E;
    try (split; [exact Hlen | intros; now rewrite andb_true_r]).
  pose proof (RowFacts.get_col_len col d _ Hwf E) as Hxs.
  unfold col_len in Hxs; simpl in Hxs; rewrite length_map in Hxs.
  assert (Hmask : forall f : option Q -> bool,
            length (mask_and mask (map f xs)) = nrows d
            /\ forall i, i < nrows d ->
                 nth i (mask_and mask (map f xs)) false
                 = nth i mask false && f (nth i xs None)).
  { intros f. split.
    - rewrite RowFacts.mask_and_length; auto. rewrite length_map. lia.
    - intros i Hi. rewrite RowFacts.mask_and_nth by (rewrite length_map; lia).
      f_equal. apply nth_map_default. lia. }
  destruct (Stats.quantile (1 # 4) xs) as [q1|];
    [destruct (Stats.quantile (3 # 4) xs) as [q3|]|]; try apply Hmask.
  destruct (Qeq_bool (q3 - q1) 0); [|apply Hmask].
  split; [exact Hlen | intros; now rewrite andb_true_r].
Qed.

Lemma remove_loop_spec t d names : forall mask,
  well_formed d -> length mask = nrows d ->
  length (fold_left (remove_col t d) names mask) = nrows d
  /\ forall i, i < nrows d ->
       nth i (fold_left (remove_col t d) names mask) false
       = nth i mask false && forallb (remove_row_ok t d i) names.
Proof.
  induction names as [|col names IH]; simpl; intros mask Hwf Hlen.
  - split; auto. intros; now rewrite andb_true_r.
  - destruct (remove_col_spec t d mask col Hwf Hlen) as [Hl Hn].
    destruct (IH _ Hwf Hl) as [Hl' Hn']. split; auto.
    intros i Hi. rewrite Hn', Hn by auto. now rewrite andb_assoc.
Qed.

Lemma nth_repeat_true n i : i < n -> nth i (repeat true n) false = true.
Proof.
  revert i; induction n as [|n IH]; intros [|i] Hi; simpl; auto; try lia.
  apply IH. lia.
Qed.

Lemma select_dtypes_number col d xs :
  get_col col d = Some (NumCol xs) -> In col (select_dtypes is_number d).
Proof.
  intros H. apply RowFacts.get_col_in in H as (c0 & Hin & Hl & Hd).
  unfold select_dtypes. rewrite <- Hl. apply in_map. apply filter_In.
  split; auto. now rewrite Hd.
Qed.

Lemma remove_rows_survive t d i :
  forallb (remove_row_ok t d i) (select_dtypes is_number d) = true
  <-> row_survives t d i.
Proof.
  rewrite forallb_forall. unfold row_survives. split.
  - intros H col xs Q1 Q3 Hcol Hq Hn.
    specialize (H col (select_dtypes_number col d xs Hcol)).
    unfold remove_row_ok in H. rewrite Hcol in H.
    apply (proj1 (remove_cell_ok_iff t xs i) H Q1 Q3 Hq Hn).
  - intros H col _. unfold remove_row_ok.
    destruct (get_col col d) as [[xs|xs|xs|xs]|] eqn:E; auto.
    apply remove_cell_ok_iff. intros Q1 Q3 Hq Hn. now apply (H col xs Q1 Q3).
Qed.

(** The ['remove'] branch on a non-empty, well-formed frame. *)
Lemma handle_outliers_remove t p :
  empty (df p) = false -> well_formed (df p) ->
  exists q mask,
    handle_outliers t "remove" p = Returned q
    /\ df q = select_rows mask (df p)
    /\ length mask = nrows (df p)
    /\ forall i, i < nrows (df p) ->
         (nth i mask false = true <-> row_survives t (df p) i).
Proof.
  intros Hne Hwf. unfold handle_outliers. rewrite Hne.
  change (String.eqb "remove" "remove") with true. cbv iota.
  set (mask := fold_left (remove_col t (df p)) (select_dtypes is_number (df p))
                         (repeat true (nrows (df p)))).
  destruct (remove_loop_spec t (df p) (select_dtypes is_number (df p))
              (repeat true (nrows (df p))) Hwf (repeat_length _ _)) as [Hl Hn].
  fold mask in Hl, Hn.
  assert (Hiff : forall i, i < nrows (df p) ->
            (nth i mask false = true <-> row_survives t (df p) i)).
  { intros i Hi. rewrite Hn, nth_repeat_true by auto. simpl.
    apply remove_rows_survive. }
  destruct (0 <? _); eexists; exists mask; (split; [reflexivity|]); auto.
Qed.

(* -------------------------------------------------------------- *)
(** *** bounds that cross *)

Lemma present_In (A : Type) (xs : list (option A)) v :
  In v (Stats.present xs) -> In (Some v) xs.
Proof.
  induction xs as [|[w|] xs IH]; simpl; auto.
  intros [->|H]; auto.
Qed.

(** Quartiles exist only when the column has a present value. *)
Lemma quantile_some q xs r :
  Stats.quantile q xs = Some r -> exists v, In (Some v) xs.
Proof.
  unfold Stats.quantile. intros H.
  destruct (Stats.present xs) as [|v l] eqn:E.
  - simpl in H. discriminate.
  - exists v. apply present_In. rewrite E. now left.
Qed.

Lemma crossed_outlier lb ub v : (ub < lb)%Q -> outlier lb ub (Some v).
Proof.
  intros H. simpl. destruct (Qlt_le_dec v lb); [now left | right; lra].
Qed.

Lemma outside_outlier lb ub x : outside lb ub x = true <-> outlier lb ub x.
Proof.
  destruct x as [v|]; simpl; [|split; [discriminate | tauto]].
  now rewrite orb_true_iff, !Qltb_lt.
Qed.

(** With the lower bound above the upper one, the two assignments leave
    the upper bound in every present cell. *)
Lemma cap_values_crossed lb ub xs :
  (ub < lb)%Q ->
  Forall2 (fun x x' => match x with Some _ => x' = Some ub | None => x' = None end)
          xs (cap_values lb ub xs).
Proof.
  intros Hlt. unfold cap_values. rewrite map_map.
  induction xs as [|x xs IH]; simpl; constructor; auto.
  destruct x as [v|]; auto.
  destruct (Qltb v lb) eqn:E1.
  - destruct (Qltb ub lb) eqn:E2; auto. apply Qltb_ge in E2. lra.
  - apply Qltb_ge in E1. destruct (Qltb ub v) eqn:E2; auto.
    apply Qltb_ge in E2. lra.
Qed.

Lemma cap_column_crossed t xs Q1 Q3 :
  quartiles xs Q1 Q3 -> (0 < Q3 - Q1)%Q -> (t < - (1 # 2))%Q ->
  cap_column t (NumCol xs)
  = NumCol (cap_values (lower_bound t Q1 Q3) (upper_bound t Q1 Q3) xs).
Proof.
  intros [H1 H3] Hiqr Ht. unfold cap_column, cap_data. rewrite H1, H3.
  destruct (Qeq_bool (Q3 - Q1) 0) eqn:E.
  { apply Qeq_bool_iff in E. rewrite E in Hiqr. now apply Qlt_irrefl in Hiqr. }
  fold (lower_bound t Q1 Q3). fold (upper_bound t Q1 Q3).
  assert (Hx : existsb (outside (lower_bound t Q1 Q3) (upper_bound t Q1 Q3)) xs = true).
  { destruct (quantile_some _ _ _ H1) as [v Hv].
    apply existsb_exists. exists (Some v). split; auto.
    apply outside_outlier, crossed_outlier.
    unfold lower_bound, upper_bound. now apply fence_cross. }
  now rewrite Hx.
Qed.

End OutlierFacts.

(* ================================================================== *)
(** ** handle_garbage *)

Module GarbageFacts.
Import Frame Pipeline.

Lemma value_eqb_sym a b : value_eqb a b = value_eqb b a.
Proof.
  destruct a, b; simpl; auto using Qeq_bool_comm, String.eqb_sym, Z.eqb_sym.
Qed.

Lemma cell_eqb_sym a b : cell_eqb a b = cell_eqb b a.
Proof. destruct a, b; simpl; auto using value_eqb_sym. Qed.

Lemma row_eqb_sym r : forall s, row_eqb r s = row_eqb s r.
Proof.
  induction r as [|a r IH]; intros [|b s]; simpl; auto.
  now rewrite cell_eqb_sym, IH.
Qed.

Lemma filter_keep_by (A : Type) (g : A -> bool) m : forall xs,
  filter g (keep_by m xs) = keep_by (mask_and m (map g xs)) xs.
Proof.
  induction m as [|b m IH]; intros [|x xs]; simpl; auto.
  destruct b; simpl; [destruct (g x)|]; now rewrite IH.
Qed.

Lemma keep_by_map_self (A : Type) (g : A -> bool) xs :
  keep_by (map g xs) xs = filter g xs.
Proof.
  induction xs as [|x xs IH]; simpl; auto.
  destruct (g x); now rewrite IH.
Qed.

Lemma duplicated_from_length rs : forall seen,
  length (duplicated_from seen rs) = length rs.
Proof. induction rs as [|r rs IH]; simpl; auto. Qed.

(** The flag of row [i]: some earlier row, or a row seen before, equals it. *)
Lemma duplicated_from_nth rs : forall seen i d,
  i < length rs ->
  nth i (duplicated_from seen rs) d
  = existsb (row_eqb (nth i rs [])) (rev (firstn i rs) ++ seen).
Proof.
  induction rs as [|r rs IH]; simpl; intros seen i d Hi; [lia|].
  destruct i as [|i]; simpl; auto.
  rewrite IH by lia. now rewrite <- app_assoc.
Qed.

Lemma firstn_In (A : Type) (d : A) l : forall i x,
  i <= length l ->
  (In x (firstn i l) <-> exists j, j < i /\ nth j l d = x).
Proof.
  induction l as [|a l IH]; simpl; intros i x Hi.
  - assert (i = 0) by lia. subst. simpl. split; [tauto|]. intros (j & Hj & _). lia.
  - destruct i as [|i]; simpl.
    + split; [tauto|]. intros (j & Hj & _). lia.
    + rewrite IH by lia. split.
      * intros [->|(j & Hj & Hx)]; [exists 0; split; [lia|auto] | exists (S j); split; [lia|auto]].
      * intros ([|j] & Hj & Hx); [now left | right; exists j; split; [lia|auto]].
Qed.

Lemma first_occurrence_iff rs i :
  i < length rs ->
  (negb (nth i (duplicated_from [] rs) true) = true
   <-> forall j, j < i -> row_eqb (nth i rs []) (nth j rs []) = false).
Proof.
  intros Hi. rewrite duplicated_from_nth by auto. rewrite app_nil_r.
  rewrite negb_true_iff. split.
  - intros H j Hj.
    destruct (row_eqb (nth i rs []) (nth j rs [])) eqn:E; auto.
    rewrite <- H. symmetry. apply existsb_exists. exists (nth j rs []).
    split; auto. apply -> in_rev.
    apply (proj2 (firstn_In _ [] rs i (nth j rs []) (Nat.lt_le_incl _ _ Hi))).
    now exists j.
  - intros H. destruct (existsb _ _) eqn:E; auto.
    apply existsb_exists in E as (x & Hx & Hxe).
    apply <- in_rev in Hx.
    apply (proj1 (firstn_In _ [] rs i x (Nat.lt_le_incl _ _ Hi))) in Hx.
    destruct Hx as (j & Hj & <-).
    rewrite H in Hxe; auto.
Qed.

(** Keeping the unflagged rows leaves no two equal rows, and none equal to
    a row seen before. *)
Lemma keep_unflagged_NoDupA rs : forall seen,
  let kept := keep_by (map negb (duplicated_from seen rs)) rs in
  NoDupA row_eq kept
  /\ forall x, In x kept -> existsb (row_eqb x) seen = false.
Proof.
  induction rs as [|r rs IH]; simpl; intros seen.
  - split; [constructor | intros x []].
  - destruct (IH (r :: seen)) as [Hnd Hout]. simpl in Hout.
    destruct (existsb (row_eqb r) seen) eqn:E; simpl.
    + split; auto. intros x Hx. specialize (Hout x Hx).
      now apply orb_false_iff in Hout.
    + split.
      * constructor; auto. intros Hin. apply InA_alt in Hin as (x & Hrx & Hx).
        specialize (Hout x Hx). apply orb_false_iff in Hout as [Hxr _].
        unfold row_eq in Hrx. rewrite row_eqb_sym in Hrx. congruence.
      * intros x [<-|Hx]; auto. specialize (Hout x Hx).
        now apply orb_false_iff in Hout.
Qed.

Lemma NoDupA_filter (A : Type) (eqA : A -> A -> Prop) (g : A -> bool) l :
  NoDupA eqA l -> NoDupA eqA (filter g l).
Proof.
  induction 1 as [|x l Hx Hl IH]; simpl; [constructor|].
  destruct (g x); auto. constructor; auto.
  intros Hin. apply Hx. apply InA_alt in Hin as (y & Hy & Hin).
  apply filter_In in Hin as [Hin _]. apply InA_alt. now exists y.
Qed.

Lemma zip_cons_length col : forall rs,
  length (zip_cons col rs) = Nat.min (length col) (length rs).
Proof.
  induction col as [|c col IH]; intros [|r rs]; simpl; auto.
Qed.

Lemma rows_length d : well_formed d -> length (rows d) = nrows d.
Proof.
  unfold well_formed, rows, col_len.
  induction (columns d) as [|c cols IH]; simpl; intros H.
  - apply repeat_length.
  - inversion H; subst. rewrite zip_cons_length, IH by auto. lia.
Qed.

(** The frame left by [handle_garbage] on a non-empty frame. *)
Lemma handle_garbage_df p :
  empty (df p) = false ->
  df (handle_garbage p) = dropna_all (drop_duplicates (df p)).
Proof.
  intros H. unfold handle_garbage. rewrite H. now destruct (0 <? _).
Qed.

Lemma handle_garbage_rows p :
  empty (df p) = false ->
  rows (df (handle_garbage p))
  = filter (fun r => negb (all_missing r))
      (keep_by (map negb (duplicated (df p))) (rows (df p))).
Proof.
  intros H. rewrite (handle_garbage_df p H).
  unfold dropna_all. rewrite RowFacts.rows_select_rows, keep_by_map_self.
  unfold drop_duplicates. now rewrite RowFacts.rows_select_rows.
Qed.

Lemma select_rows_nrows mask d :
  well_formed d -> nrows (select_rows mask d) = length (rows (select_rows mask d)).
Proof.
  intros Hwf. rewrite RowFacts.rows_select_rows. simpl.
  apply RowFacts.keep_by_length. now rewrite length_seq, rows_length.
Qed.

Lemma select_rows_well_formed mask d :
  well_formed d -> well_formed (select_rows mask d).
Proof.
  unfold well_formed. intros H. simpl. rewrite Forall_map. simpl.
  eapply Forall_impl; [|exact H]. intros c Hc. simpl in *.
  unfold col_len in *. rewrite RowFacts.cells_select_data.
  apply RowFacts.keep_by_length. now rewrite length_seq.
Qed.

End GarbageFacts.

(* ================================================================== *)
(** ** impute_missing *)

Module ImputeFacts.
Import Frame Pipeline FrameFacts Spec.

Section Order.
Variable A : Type.
Variable eqb : A -> A -> bool.
Variable leb : A -> A -> bool.
Hypothesis eqb_eq : forall x y, eqb x y = true <-> x = y.
Hypothesis leb_total : forall x y, leb x y = true \/ leb y x = true.
Hypothesis leb_trans : forall x y z, leb x y = true -> leb y z = true -> leb x z = true.

Lemma leb_refl x : leb x x = true.
Proof. now destruct (leb_total x x). Qed.

Lemma insert_sorted_In x l y :
  In y (Stats.insert_sorted leb x l) <-> y = x \/ In y l.
Proof.
  induction l as [|a l IH]; simpl.
  - intuition.
  - destruct (leb x a); simpl; rewrite ?IH; intuition.
Qed.

Lemma sort_In l y : In y (Stats.sort leb l) <-> In y l.
Proof.
  induction l as [|a l IH]; simpl; [tauto|].
  rewrite insert_sorted_In, IH. intuition.
Qed.

(** The head of a sorted list sorts first. *)
Lemma sort_head l m rest :
  Stats.sort leb l = m :: rest -> forall y, In y l -> leb m y = true.
Proof.
  revert m rest. induction l as [|a l IH]; simpl; intros m rest H y Hy; [tauto|].
  destruct (Stats.sort leb l) as [|h t] eqn:E.
  - simpl in H. inversion H; subst.
    destruct Hy as [->|Hy]; [apply leb_refl|].
    apply sort_In in Hy. rewrite E in Hy. destruct Hy.
  - simpl in H. destruct (leb a h) eqn:Eah.
    + inversion H; subst. destruct Hy as [->|Hy]; [apply leb_refl|].
      apply leb_trans with h; auto. now apply (IH h t).
    + inversion H; subst.
      destruct Hy as [->|Hy]; [|now apply (IH m t)].
      destruct (leb_total y m) as [F|T]; [congruence | exact T].
Qed.

Lemma insert_sorted_perm x l : Permutation (Stats.insert_sorted leb x l) (x :: l).
Proof.
  induction l as [|a l IH]; simpl; auto.
  destruct (leb x a); auto.
  rewrite IH. apply perm_swap.
Qed.

(** [sort] rearranges its input into ascending order. *)
Lemma sort_perm l : Permutation (Stats.sort leb l) l.
Proof.
  induction l as [|a l IH]; simpl; auto.
  rewrite insert_sorted_perm. now constructor.
Qed.

Lemma insert_sorted_sorted x l :
  StronglySorted (fun a b => leb a b = true) l ->
  StronglySorted (fun a b => leb a b = true) (Stats.insert_sorted leb x l).
Proof.
  induction 1 as [|a l Hl IH Ha]; simpl.
  - repeat constructor.
  - destruct (leb x a) eqn:E.
    + constructor; [now constructor|]. constructor; auto.
      eapply Forall_impl; [|exact Ha]. intros b Hb. now apply leb_trans with a.
    + constructor; auto. apply Forall_forall. intros b Hb.
      apply insert_sorted_In in Hb as [->|Hb].
      * destruct (leb_total a x) as [T|F]; [exact T | congruence].
      * rewrite Forall_forall in Ha. now apply Ha.
Qed.

Lemma sort_sorted l : StronglySorted (fun a b => leb a b = true) (Stats.sort leb l).
Proof.
  induction l as [|a l IH]; simpl; [constructor|].
  now apply insert_sorted_sorted.
Qed.

Lemma dedup_In l y : In y (Stats.dedup eqb l) <-> In y l.
Proof.
  induction l as [|a l IH]; simpl; [tauto|].
  destruct (existsb (eqb a) l) eqn:E; simpl; rewrite IH; [|tauto].
  split; auto. intros [<-|H]; auto.
  apply existsb_exists in E as (z & Hz & Ez). apply eqb_eq in Ez. now subst.
Qed.

Lemma max_ge (f : A -> nat) l x :
  In x l -> f x <= fold_right Nat.max 0 (map f l).
Proof.
  induction l as [|a l IH]; simpl; [tauto|].
  intros [->|H]; [lia|]. specialize (IH H). lia.
Qed.

Lemma max_attained (f : A -> nat) l :
  l <> [] -> exists x, In x l /\ f x = fold_right Nat.max 0 (map f l).
Proof.
  induction l as [|a l IH]; [congruence|]. intros _. simpl.
  destruct l as [|b l].
  - exists a. simpl. split; auto. lia.
  - destruct IH as (x & Hx & Ex); [discriminate|].
    destruct (Nat.le_ge_cases (fold_right Nat.max 0 (map f (b :: l))) (f a)).
    + exists a. split; auto. lia.
    + exists x. split; auto. lia.
Qed.

Lemma count_present v xs :
  Stats.count eqb v (Stats.present xs) = occurrences eqb v xs.
Proof.
  unfold Stats.count, occurrences.
  induction xs as [|[w|] xs IH]; simpl; auto.
  destruct (eqb v w); simpl; auto.
Qed.

Lemma present_In_iff (xs : list (option A)) v :
  In v (Stats.present xs) <-> In (Some v) xs.
Proof.
  induction xs as [|[w|] xs IH]; simpl; [tauto| |].
  - rewrite IH. split; intros [H|H]; auto; [left; congruence | left; congruence].
  - rewrite IH. split; auto. intros [H|H]; [discriminate | auto].
Qed.

(** The first entry of [Series.mode()] is the most frequent present value
    that sorts first; the mode is empty when nothing is present. *)
Lemma mode_most_frequent xs :
  most_frequent eqb leb xs (hd_error (Stats.mode eqb leb xs)).
Proof.
  unfold Stats.mode.
  set (l := Stats.present xs).
  set (cands := filter (fun x => Stats.count eqb x l =? Stats.max_count eqb l) l).
  destruct (Stats.sort leb (Stats.dedup eqb cands)) as [|m rest] eqn:E; simpl.
  - (* no candidate: nothing is present *)
    assert (Hl : l = []).
    { destruct l as [|a l'] eqn:El; auto. exfalso.
      destruct (max_attained (fun x => Stats.count eqb x l) l) as (x & Hx & Ex);
        [rewrite El; discriminate|].
      assert (Hin : In x (Stats.sort leb (Stats.dedup eqb cands))).
      { apply sort_In, dedup_In. unfold cands. rewrite <- El.
        apply filter_In. split; auto. apply Nat.eqb_eq. exact Ex. }
      rewrite E in Hin. destruct Hin. }
    intros [v|] Hx; auto. apply present_In_iff in Hx. fold l in Hx.
    rewrite Hl in Hx. destruct Hx.
  - assert (Hm : In m cands).
    { apply dedup_In, sort_In. rewrite E. now left. }
    unfold cands in Hm. apply filter_In in Hm as [Hml Hmc].
    apply Nat.eqb_eq in Hmc.
    split; [|split].
    + now apply present_In_iff.
    + intros w Hw. rewrite <- !count_present. fold l. rewrite Hmc.
      apply (max_ge (fun x => Stats.count eqb x l)).
      now apply present_In_iff.
    + intros w Hw Hc. apply (sort_head _ _ _ E).
      apply dedup_In. unfold cands. apply filter_In. split.
      * now apply present_In_iff.
      * apply Nat.eqb_eq. rewrite <- Hmc. unfold l. rewrite !count_present.
        exact Hc.
Qed.

Lemma fill_mode_filled xs :
  filled (hd_error (Stats.mode eqb leb xs)) xs (fill_mode eqb leb xs).
Proof.
  unfold fill_mode, filled.
  destruct (Stats.mode eqb leb xs) as [|m rest]; simpl.
  - induction xs as [|[v|] xs IH]; constructor; auto.
  - unfold Stats.fillna. induction xs as [|[v|] xs IH]; simpl; constructor; auto.
Qed.

End Order.

Lemma fill_median_filled xs : filled (Stats.median xs) xs (fill_median xs).
Proof.
  unfold fill_median, filled.
  destruct (Stats.median xs) as [m|]; simpl.
  - unfold Stats.fillna. induction xs as [|[v|] xs IH]; simpl; constructor; auto.
  - induction xs as [|[v|] xs IH]; constructor; auto.
Qed.

(** A column without a missing cell is filled already, whatever the value. *)
Lemma filled_no_missing (A : Type) (m : option A) xs :
  existsb (@Stats.is_missing A) xs = false -> filled m xs xs.
Proof.
  unfold filled. induction xs as [|[v|] xs IH]; simpl; intros H;
    try discriminate; constructor; auto.
Qed.

Lemma has_null_map (A : Type) (f : A -> Value) xs :
  existsb (@Stats.is_missing Value) (map (option_map f) xs)
  = existsb (@Stats.is_missing A) xs.
Proof.
  induction xs as [|[v|] xs IH]; simpl; auto.
Qed.

Lemma string_leb_trans x y z :
  String.leb x y = true -> String.leb y z = true -> String.leb x z = true.
Proof.
  unfold String.leb. intros Hxy Hyz.
  destruct (String.compare x z) eqn:Exz; auto. exfalso.
  destruct (String.compare x y) eqn:Exy; [|clear Hxy|discriminate].
  - apply String.compare_eq_iff in Exy. subst. now rewrite Exz in Hyz.
  - destruct (String.compare y z) eqn:Eyz; [|clear Hyz|discriminate].
    + apply String.compare_eq_iff in Eyz. subst. congruence.
    + apply OrderedTypeEx.String_as_OT.cmp_lt in Exy, Eyz.
      pose proof (OrderedTypeEx.String_as_OT.lt_trans _ _ _ Exy Eyz) as Hlt.
      apply OrderedTypeEx.String_as_OT.cmp_lt in Hlt.
      unfold OrderedTypeEx.String_as_OT.cmp in Hlt. congruence.
Qed.

Lemma Qle_bool_total x y : Qle_bool x y = true \/ Qle_bool y x = true.
Proof.
  rewrite !Qle_bool_iff. destruct (Qlt_le_dec x y) as [H|H]; auto.
  left. now apply Qlt_le_weak.
Qed.

Lemma Qle_bool_trans x y z :
  Qle_bool x y = true -> Qle_bool y z = true -> Qle_bool x z = true.
Proof. rewrite !Qle_bool_iff. apply Qle_trans. Qed.

Lemma sort_Qle l : StronglySorted Qle (Stats.sort Qle_bool l).
Proof.
  pose proof (sort_sorted _ Qle_bool Qle_bool_total Qle_bool_trans l) as H.
  induction H as [|a s Hs IH Ha]; constructor; auto.
  eapply Forall_impl; [|exact Ha]. intros b Hb. now apply Qle_bool_iff.
Qed.

(** The median is read off the present values arranged in ascending
    order: the middle one, or the mean of the two middle ones. *)
Lemma median_of_sorted xs m :
  Stats.median xs = Some m ->
  exists s,
    Permutation s (Stats.present xs)
    /\ StronglySorted Qle s
    /\ s <> []
    /\ m = (if Nat.even (length s)
            then ((nth (length s / 2 - 1) s 0 + nth (length s / 2) s 0) / 2)%Q
            else nth (length s / 2) s 0%Q).
Proof.
  unfold Stats.median. intros H.
  exists (Stats.sort Qle_bool (Stats.present xs)).
  split; [apply sort_perm|]. split.
  - apply sort_Qle.
  - destruct (Stats.sort Qle_bool (Stats.present xs)) as [|a s] eqn:E;
      [discriminate|].
    split; [discriminate|].
    destruct (Nat.even (length (a :: s))); now inversion H.
Qed.

(** The quantile interpolates between two neighbours of the present values
    arranged in ascending order. *)
Lemma quantile_of_sorted q xs r :
  Stats.quantile q xs = Some r ->
  exists s,
    Permutation s (Stats.present xs)
    /\ StronglySorted Qle s
    /\ s <> []
    /\ (let h := (q * inject_Z (Z.of_nat (length s - 1)))%Q in
        let lo := Z.to_nat (Qfloor h) in
        let hi := Nat.min (lo + 1) (length s - 1) in
        r = (nth lo s 0 + (nth hi s 0 - nth lo s 0) * (h - inject_Z (Qfloor h)))%Q).
Proof.
  unfold Stats.quantile. intros H.
  exists (Stats.sort Qle_bool (Stats.present xs)).
  split; [apply sort_perm|]. split.
  - apply sort_Qle.
  - destruct (Stats.sort Qle_bool (Stats.present xs)) as [|a s] eqn:E;
      [discriminate|].
    split; [discriminate|]. now inversion H.
Qed.

Lemma Z_leb_total x y : Z.leb x y = true \/ Z.leb y x = true.
Proof. rewrite !Z.leb_le. lia. Qed.

Lemma Z_leb_trans x y z :
  Z.leb x y = true -> Z.leb y z = true -> Z.leb x z = true.
Proof. rewrite !Z.leb_le. lia. Qed.

Lemma impute_turn_imputed c : imputed c (impute_turn c).
Proof.
  unfold impute_turn, has_null.
  destruct c as [xs|xs|xs|xs]; simpl; rewrite has_null_map.
  - destruct (existsb _ xs) eqn:E.
    + exists (fill_median xs). split; auto. apply fill_median_filled.
    + exists xs. split; auto. now apply filled_no_missing.
  - exists (if existsb (@Stats.is_missing string) xs
            then fill_mode String.eqb String.leb xs else xs),
           (hd_error (Stats.mode String.eqb String.leb xs)).
    split; [now destruct (existsb _ xs)|]. split.
    + apply (mode_most_frequent _ _ _ String.eqb_eq String.leb_total
               string_leb_trans).
    + destruct (existsb _ xs) eqn:E;
        [apply fill_mode_filled | now apply filled_no_missing].
  - exists (if existsb (@Stats.is_missing Z) xs
            then fill_mode Z.eqb Z.leb xs else xs),
           (hd_error (Stats.mode Z.eqb Z.leb xs)).
    split; [now destruct (existsb _ xs)|]. split.
    + apply (mode_most_frequent _ _ _ Z.eqb_eq Z_leb_total Z_leb_trans).
    + destruct (existsb _ xs) eqn:E;
        [apply fill_mode_filled | now apply filled_no_missing].
  - exists (if existsb (@Stats.is_missing string) xs
            then fill_mode String.eqb String.leb xs else xs),
           (hd_error (Stats.mode String.eqb String.leb xs)).
    split; [now destruct (existsb _ xs)|]. split.
    + apply (mode_most_frequent _ _ _ String.eqb_eq String.leb_total
               string_leb_trans).
    + destruct (existsb _ xs) eqn:E;
        [apply fill_mode_filled | now apply filled_no_missing].
Qed.

Lemma impute_col_visit d n col :
  fst (impute_col (d, n) col) = visit has_null impute_data d col.
Proof.
  unfold impute_col, visit.
  destruct (get_col col d) as [c|]; auto.
  now destruct (has_null c).
Qed.

Lemma impute_loop names : forall d n,
  fst (fold_left impute_col names (d, n))
  = fold_left (visit has_null impute_data) names d.
Proof.
  induction names as [|col names IH]; intros d n; [reflexivity|].
  cbn [fold_left].
  pose proof (impute_col_visit d n col) as H.
  destruct (impute_col (d, n) col) as [d' n']. simpl in H.
  rewrite <- H. apply IH.
Qed.

(** Whatever the order in which the labels are visited, every column gets
    its turn once. *)
Lemma impute_over_any_order order d :
  unique_labels d -> Permutation order (labels d) ->
  fst (impute_over order d)
  = {| nrows := nrows d;
       columns := map (fun c => mkColumn (label c) (impute_turn (data c)))
                      (columns d) |}.
Proof.
  intros Hnd Hperm. unfold impute_over. rewrite impute_loop.
  rewrite visit_all; auto.
  - f_equal. unfold visit_columns. apply map_ext_in; intros c Hin.
    assert (Hmem : existsb (String.eqb (label c)) order = true).
    { apply existsb_eqb_In. apply Permutation_in with (labels d).
      - now apply Permutation_sym.
      - unfold labels. now apply in_map. }
    rewrite Hmem. unfold visited, impute_turn.
    destruct c as [l c]; simpl. now destruct (has_null c).
  - apply Permutation_NoDup with (labels d); auto. now apply Permutation_sym.
Qed.

Lemma impute_missing_df p :
  empty (df p) = false ->
  df (impute_missing p) = fst (impute_over (labels (df p)) (df p)).
Proof.
  intros H. unfold impute_missing. rewrite H.
  destruct (impute_over _ _) as [d n]. now destruct (0 <? n).
Qed.

End ImputeFacts.

(* ================================================================== *)
(** ** The counters of the stage loops *)

Module CountFacts.
Import Frame Pipeline FrameFacts.

Lemma get_col_set_col_other col col' c d :
  col' <> col -> get_col col' (set_col col c d) = get_col col' d.
Proof.
  intros Hneq. unfold get_col, set_col; simpl.
  induction (columns d) as [|c0 cols IH]; simpl; auto.
  destruct (String.eqb_spec (label c0) col) as [E|E]; simpl.
  - destruct (String.eqb_spec col col') as [E'|_]; [congruence|].
    destruct (String.eqb_spec (label c0) col') as [E'|_]; [congruence|].
    exact IH.
  - destruct (String.eqb (label c0) col'); auto.
Qed.

Section Counting.
Variable guard : ColData -> bool.
Variable f : ColData -> ColData.

(** The counter ends at the number of labels whose turn assigned. *)
Lemma visit_counting_snd names : forall d n,
  NoDup names ->
  snd (fold_left (visit_counting guard f) names (d, n))
  = n + length (filter (guard_at guard d) names).
Proof.
  induction names as [|col names IH]; intros d n Hnd; simpl; [lia|].
  inversion Hnd as [|? ? Hnotin Hnd']; subst.
  unfold guard_at at 1.
  assert (Hrest : forall d' c, d' = set_col col c d ->
            filter (guard_at guard d') names = filter (guard_at guard d) names).
  { intros d' c ->. apply filter_ext_in. intros col' Hin. unfold guard_at.
    rewrite get_col_set_col_other; auto. intros ->. contradiction. }
  destruct (get_col col d) as [c|]; [destruct (guard c)|].
  - rewrite IH by auto. rewrite (Hrest _ (f c) eq_refl). simpl. lia.
  - now rewrite IH.
  - now rewrite IH.
Qed.

Lemma guard_at_labels d sub :
  unique_labels d -> incl sub (columns d) ->
  filter (guard_at guard d) (map label sub)
  = map label (filter (fun c => guard (data c)) sub).
Proof.
  intros Hnd. induction sub as [|c sub IH]; intros Hincl; simpl; auto.
  unfold guard_at at 1.
  rewrite (get_col_unique d c Hnd) by (apply Hincl; now left).
  rewrite IH by (intros x Hx; apply Hincl; now right).
  now destruct (guard (data c)).
Qed.
End Counting.

Lemma filter_filter_implied (A : Type) (g h : A -> bool) l :
  (forall x, g x = true -> h x = true) ->
  filter g (filter h l) = filter g l.
Proof.
  intros Hgh. induction l as [|x l IH]; simpl; auto.
  destruct (h x) eqn:Eh; simpl.
  - now rewrite IH.
  - destruct (g x) eqn:Eg; auto. rewrite (Hgh x Eg) in Eh. discriminate.
Qed.

Lemma cap_col_counting t acc col :
  cap_col t acc col = visit_counting (cap_guard t) (cap_column t) acc col.
Proof.
  destruct acc as [d n]. unfold cap_col, visit_counting, cap_guard, cap_column.
  destruct (get_col col d) as [[xs|xs|xs|xs]|]; auto.
  now destruct (cap_data t xs).
Qed.

(** [imputed_count] is the number of columns that held a missing value. *)
Lemma imputed_count_spec d :
  unique_labels d ->
  snd (impute_over (labels d) d)
  = length (filter (fun c => has_null (data c)) (columns d)).
Proof.
  intros Hnd. unfold impute_over.
  change impute_col with (visit_counting has_null impute_data).
  rewrite visit_counting_snd by exact Hnd.
  unfold labels. rewrite guard_at_labels; auto using incl_refl.
  now rewrite length_map.
Qed.

(** [outlier_cols] is the number of numeric columns that were capped. *)
Lemma outlier_cols_spec t d :
  unique_labels d ->
  snd (fold_left (cap_col t) (select_dtypes is_number d) (d, 0))
  = length (filter (fun c => cap_guard t (data c)) (columns d)).
Proof.
  intros Hnd.
  rewrite (fold_left_ext _ _ _ _ (cap_col_counting t)).
  rewrite visit_counting_snd by now apply select_dtypes_NoDup.
  unfold select_dtypes. rewrite guard_at_labels; auto.
  - rewrite length_map. simpl. f_equal. apply filter_filter_implied.
    intros c. unfold cap_guard. now destruct (data c).
  - intros c Hc. now apply filter_In in Hc.
Qed.

End CountFacts.

(* ================================================================== *)
(** ** The claims *)

Import Frame Pipeline Examples.



(* ------------------------------------------------------------------ *)
(** *** The report and the empty frame *)

Lemma handle_garbage_report p : report (handle_garbage p) = report p.
Proof.
  unfold handle_garbage. destruct (empty (df p)); auto.
  now destruct (0 <? _).
Qed.

Lemma impute_missing_report p : report (impute_missing p) = report p.
Proof.
  unfold impute_missing. destruct (empty (df p)); auto.
  destruct (impute_over _ _) as [d n]. now destruct (0 <? n).
Qed.

Lemma handle_outliers_report threshold method p :
  report (state_of (handle_outliers threshold method p)) = report p.
Proof.
  unfold handle_outliers. destruct (empty (df p)); auto.
  destruct (String.eqb method "remove").
  - now destruct (0 <? _).
  - destruct (String.eqb method "cap"); auto.
    destruct (fold_left _ _ _) as [d n]. now destruct (0 <? n).
Qed.

Lemma optimize_report to_datetime p : report (optimize to_datetime p) = report p.
Proof. unfold optimize. now destruct (empty (df p)). Qed.

(** C7: on a store with zero rows every stage returns with the store and the
    report as they were and none raises; the whole chain of stages does the
    same, so an empty table stays empty. *)
Theorem stages_skip_empty_store
    (to_datetime : ColData -> option (list (option Z)))
    (threshold : Q) (method : string) (p : State) :
  nrows (df p) = 0 ->
  (df (standardize p) = df p /\ report (standardize p) = report p)
  /\ handle_garbage p = p
  /\ impute_missing p = p
  /\ handle_outliers threshold method p = Returned p
  /\ optimize to_datetime p = p
  /\ (raised (run_all to_datetime threshold method p) = false
      /\ df (state_of (run_all to_datetime threshold method p)) = df p
      /\ report (state_of (run_all to_datetime threshold method p)) = report p).
Proof.
  intros H0.
  assert (He : empty (df p) = true) by (unfold empty; now rewrite H0).
  assert (Hs : df (standardize p) = df p)
    by now apply StandardizeFacts.standardize_skip.
  assert (Hg : forall q, df q = df p -> handle_garbage q = q).
  { intros q Hq. unfold handle_garbage. now rewrite Hq, He. }
  assert (Hi : forall q, df q = df p -> impute_missing q = q).
  { intros q Hq. unfold impute_missing. now rewrite Hq, He. }
  assert (Ho : forall q, df q = df p -> handle_outliers threshold method q = Returned q).
  { intros q Hq. unfold handle_outliers. now rewrite Hq, He. }
  assert (Hz : forall q, df q = df p -> optimize to_datetime q = q).
  { intros q Hq. unfold optimize. now rewrite Hq, He. }
  repeat split; auto using StandardizeFacts.standardize_report.
  all: unfold run_all; rewrite (Hg _ Hs), (Hi _ Hs), (Ho _ Hs); simpl;
       try rewrite (Hz _ Hs); auto using StandardizeFacts.standardize_report.
Qed.

Lemma stages_skip_empty_store_witness :
  nrows (df (init empty_frame)) = 0
  /\ handle_outliers default_threshold "cap" (init empty_frame)
     = Returned (init empty_frame).
Proof.
  split; [reflexivity|].
  apply (stages_skip_empty_store (fun _ => None) default_threshold "cap"
           (init empty_frame) eq_refl).
Defined.



(** C8, as stated, fails: handle_garbage removes one row of this frame, and
    the report holds no entry with that count afterwards. *)
Lemma report_lacks_removed_count :
  nrows (df (init repeated_row_frame))
  - nrows (df (handle_garbage (init repeated_row_frame))) = 1
  /\ ~ (exists key,
          report_get key (report (handle_garbage (init repeated_row_frame)))
          = Some (Stat 1)).
Proof.
  split; [reflexivity|].
  intros [key H].
  change (report (handle_garbage (init repeated_row_frame)))
    with [("initial_shape", Shape 2 1)] in H.
  cbn [report_get] in H.
  destruct (String.eqb "initial_shape" key); discriminate.
Qed.

(** C8, amended: no stage writes to the run report.  After every stage the
    report is the one the stage started with, so after any chain of stages
    it still holds exactly the initial shape captured at construction; the
    stage-level counts go to the logger only: on a non-empty store with
    distinct labels handle_garbage logs the count of removed rows,
    impute_missing the count of columns that held a missing value, and
    handle_outliers the count of capped columns or of removed rows, each
    when it is positive. *)
Theorem stages_leave_report_untouched
    (to_datetime : ColData -> option (list (option Z)))
    (threshold : Q) (method : string) (p : State) :
  report (standardize p) = report p
  /\ report (handle_garbage p) = report p
  /\ report (impute_missing p) = report p
  /\ report (state_of (handle_outliers threshold method p)) = report p
  /\ report (optimize to_datetime p) = report p
  /\ (forall d, report (init d) = [("initial_shape", Shape (nrows d) (ncols d))])
  /\ (empty (df p) = false ->
      unique_labels (df p) ->
      (let removed := nrows (df p) - nrows (df (handle_garbage p)) in
       log (handle_garbage p)
       = log p ++ [Info (if 0 <? removed then MsgGarbageRemoved removed
                         else MsgNoGarbage)])
      /\ (let imputed_count :=
            length (filter (fun c => has_null (data c)) (columns (df p))) in
          log (impute_missing p)
          = log p ++ [Info (if 0 <? imputed_count then MsgImputed imputed_count
                            else MsgNothingToImpute)])
      /\ (let outlier_cols :=
            length (filter (fun c => cap_guard threshold (data c)) (columns (df p))) in
          log (state_of (handle_outliers threshold "cap" p))
          = log p ++ [Info (if 0 <? outlier_cols then MsgCapped outlier_cols
                            else MsgNoOutliers)])
      /\ (let removed :=
            nrows (df p)
            - nrows (df (state_of (handle_outliers threshold "remove" p))) in
          log (state_of (handle_outliers threshold "remove" p))
          = log p ++ [Info (if 0 <? removed then MsgRowsRemoved removed
                            else MsgNoRowsToRemove)])).
Proof.
  repeat match goal with |- _ /\ _ => split end;
    auto using StandardizeFacts.standardize_report, handle_garbage_report,
               impute_missing_report, handle_outliers_report, optimize_report.
  intros He Hnd. repeat match goal with |- _ /\ _ => split end.
  - unfold handle_garbage. rewrite He. simpl.
    destruct (0 <? _) eqn:E; simpl; now rewrite E.
  - pose proof (CountFacts.imputed_count_spec (df p) Hnd) as Hn.
    unfold impute_missing. rewrite He.
    destruct (impute_over (labels (df p)) (df p)) as [d n]. simpl in Hn.
    rewrite <- Hn. cbv zeta. now destruct (0 <? n).
  - pose proof (CountFacts.outlier_cols_spec threshold (df p) Hnd) as Hn.
    unfold handle_outliers. rewrite He.
    change (String.eqb "cap" "remove") with false.
    change (String.eqb "cap" "cap") with true. cbv iota.
    destruct (fold_left (cap_col threshold) _ _) as [d n]. simpl in Hn.
    rewrite <- Hn. cbv zeta. now destruct (0 <? n).
  - assert (H : exists d,
               df (state_of (handle_outliers threshold "remove" p)) = d
               /\ log (state_of (handle_outliers threshold "remove" p))
                  = log p ++ [Info (if 0 <? nrows (df p) - nrows d
                                    then MsgRowsRemoved (nrows (df p) - nrows d)
                                    else MsgNoRowsToRemove)]).
    { unfold handle_outliers. rewrite He.
      change (String.eqb "remove" "remove") with true. cbv iota zeta.
      destruct (0 <? _) eqn:E; eexists; (split; [reflexivity|]);
        cbn [df state_of emit with_df log]; now rewrite E. }
    destruct H as (d & Hd & Hl). cbv zeta. now rewrite Hl, Hd.
Qed.

Lemma stages_leave_report_untouched_witness :
  report (handle_garbage (init demo_frame)) = [("initial_shape", Shape 5 4)]
  /\ log (impute_missing (init demo_frame))
     = [Info (MsgLoaded 5 4); Info (MsgImputed 2)].
Proof.
  destruct (stages_leave_report_untouched (fun _ => None) default_threshold "cap"
              (init demo_frame))
    as (_ & Hg & _ & _ & _ & _ & Hlog).
  split; [exact Hg|].
  assert (Hnd : unique_labels (df (init demo_frame))).
  { repeat constructor; simpl; intuition discriminate. }
  destruct (Hlog eq_refl Hnd) as (_ & Hi & _). exact Hi.
Defined.

(* ------------------------------------------------------------------ *)
(** *** Capping *)

Import Spec.






(* ------------------------------------------------------------------ *)
(** *** Removing *)



(* ------------------------------------------------------------------ *)
(** *** Thresholds that are not positive *)




(* ------------------------------------------------------------------ *)
(** *** Duplicates and empty rows *)

(** C5: after handle_garbage on a store with at least one column, no two
    rows are value-identical (missing markers equal to each other) and no
    row has every value missing; the rows left are pre-stage rows,
    unchanged and in order, selected by a mask that keeps row [i] exactly
    when it is not entirely missing and no earlier row equals it (the first
    occurrence of each group of duplicates); the row count is the number of
    rows left and does not exceed the pre-stage row count. *)
Theorem handle_garbage_keeps_first_occurrences (p : State) :
  0 < ncols (df p) ->
  well_formed (df p) ->
  let before := rows (df p) in
  let after := rows (df (handle_garbage p)) in
  NoDupA row_eq after
  /\ Forall (fun r => all_missing r = false) after
  /\ (exists mask,
        length mask = nrows (df p)
        /\ after = keep_by mask before
        /\ forall i, i < nrows (df p) ->
             (nth i mask false = true
              <-> (all_missing (nth i before []) = false
                   /\ forall j, j < i ->
                        row_eqb (nth i before []) (nth j before []) = false)))
  /\ nrows (df (handle_garbage p)) = length after
  /\ nrows (df (handle_garbage p)) <= nrows (df p).
Proof.
  intros Hcols Hwf before after.
  pose proof (GarbageFacts.rows_length (df p) Hwf) as Hlen. fold before in Hlen.
  destruct (empty (df p)) eqn:He.
  - (* no rows: the stage returns at once *)
    assert (H0 : nrows (df p) = 0).
    { unfold empty in He. apply orb_true_iff in He as [H|H].
      - now apply Nat.eqb_eq in H.
      - apply Nat.eqb_eq in H. lia. }
    assert (Hp : handle_garbage p = p) by (unfold handle_garbage; now rewrite He).
    unfold after. rewrite Hp. fold before.
    destruct before as [|r rs]; [|simpl in Hlen; lia].
    rewrite H0.
    split; [constructor|]. split; [constructor|].
    split; [|split; simpl; lia].
    exists []. split; [reflexivity|]. split; [reflexivity|].
    intros i Hi. lia.
  - pose proof (GarbageFacts.handle_garbage_rows p He) as Hrows.
    fold before after in Hrows.
    set (g := fun r : Row => negb (all_missing r)) in *.
    set (m1 := map negb (duplicated (df p))) in *.
    assert (Hm1 : length m1 = length before).
    { unfold m1, duplicated. now rewrite length_map, GarbageFacts.duplicated_from_length. }
    split; [|split; [|split; [|split]]].
    + rewrite Hrows. apply GarbageFacts.NoDupA_filter.
      apply (GarbageFacts.keep_unflagged_NoDupA before []).
    + rewrite Hrows. apply Forall_forall. intros r Hr.
      apply filter_In in Hr as [_ Hr]. now apply negb_true_iff in Hr.
    + exists (mask_and m1 (map g before)). split; [|split].
      * rewrite RowFacts.mask_and_length; rewrite ?length_map; lia.
      * rewrite Hrows. apply GarbageFacts.filter_keep_by.
      * intros i Hi.
        rewrite RowFacts.mask_and_nth by (rewrite length_map; lia).
        rewrite (OutlierFacts.nth_map_default _ _ g [] false) by lia.
        unfold m1.
        rewrite (OutlierFacts.nth_map_default _ _ negb true false)
          by (unfold duplicated; rewrite GarbageFacts.duplicated_from_length; fold before; lia).
        rewrite andb_true_iff. unfold duplicated. fold before.
        rewrite GarbageFacts.first_occurrence_iff by lia.
        unfold g. rewrite negb_true_iff. tauto.
    + rewrite (GarbageFacts.handle_garbage_df p He). unfold dropna_all.
      rewrite GarbageFacts.select_rows_nrows.
      * unfold after. now rewrite (GarbageFacts.handle_garbage_df p He).
      * apply GarbageFacts.select_rows_well_formed, Hwf.
    + assert (Hn : nrows (df (handle_garbage p)) = length after).
      { rewrite (GarbageFacts.handle_garbage_df p He). unfold dropna_all.
        rewrite GarbageFacts.select_rows_nrows.
        - unfold after. now rewrite (GarbageFacts.handle_garbage_df p He).
        - apply GarbageFacts.select_rows_well_formed, Hwf. }
      rewrite Hn, Hrows, <- Hlen.
      etransitivity; [apply filter_length_le|].
      apply RowFacts.keep_by_length_le.
Qed.

Lemma handle_garbage_keeps_first_occurrences_witness :
  let before := rows (df (init repeated_row_frame)) in
  let after := rows (df (handle_garbage (init repeated_row_frame))) in
  NoDupA row_eq after
  /\ Forall (fun r => all_missing r = false) after
  /\ (exists mask,
        length mask = 2
        /\ after = keep_by mask before
        /\ forall i, i < 2 ->
             (nth i mask false = true
              <-> (all_missing (nth i before []) = false
                   /\ forall j, j < i ->
                        row_eqb (nth i before []) (nth j before []) = false)))
  /\ nrows (df (handle_garbage (init repeated_row_frame))) = length after
  /\ nrows (df (handle_garbage (init repeated_row_frame))) <= 2.
Proof.
  apply (handle_garbage_keeps_first_occurrences (init repeated_row_frame)).
  - unfold ncols; simpl; lia.
  - repeat constructor.
Defined.

(* ------------------------------------------------------------------ *)
(** *** Imputation *)



(* ------------------------------------------------------------------ *)
(** *** Missing text after standardize *)

Module NanFacts.
Import FrameFacts.

Lemma strip_cells_present xs : Forall (fun x => x <> None) (strip_cells xs).
Proof.
  unfold strip_cells. apply Forall_forall. intros x Hx.
  apply in_map_iff in Hx as (y & <- & _). discriminate.
Qed.

Lemma all_present_no_null (xs : list (option string)) :
  Forall (fun x => x <> None) xs -> has_null (ObjCol xs) = false.
Proof.
  unfold has_null. simpl. rewrite ImputeFacts.has_null_map.
  induction 1 as [|[v|] xs Hx _ IH]; simpl; auto. congruence.
Qed.

(** The object columns of a standardized frame come out of [strip_cells]. *)
Lemma standardized_object_column p col xs :
  empty (df p) = false ->
  NoDup (map Text.clean_name (labels (df p))) ->
  get_col col (df (standardize p)) = Some (ObjCol xs) ->
  exists xs0, xs = strip_cells xs0.
Proof.
  intros Hne Hnd H. rewrite (StandardizeFacts.standardize_df p Hne Hnd) in H.
  apply RowFacts.get_col_in in H as (c0 & Hin & _ & Hd). simpl in Hin.
  apply in_map_iff in Hin as (c & <- & _). simpl in Hd.
  destruct (data c) as [ys|ys|ys|ys]; simpl in Hd; try discriminate.
  inversion Hd. now exists ys.
Qed.

(** A row that crosses a column without missing cells is not entirely
    missing. *)
Lemma rows_not_all_missing base cols :
  Exists (fun cs => Forall (fun x => x <> None) cs) cols ->
  Forall (fun r => all_missing r = false) (fold_right zip_cons base cols).
Proof.
  induction cols as [|cs cols IH]; intros H; inversion H; subst; simpl.
  - clear IH H. revert H1. generalize (fold_right zip_cons base cols) as rs.
    induction cs as [|c cs IHc]; intros [|r rs] Hc; simpl; constructor.
    + inversion Hc; subst. destruct c; simpl; [reflexivity | congruence].
    + inversion Hc; subst. now apply IHc.
  - specialize (IH H1). revert IH.
    generalize (fold_right zip_cons base cols) as rs. clear.
    induction cs as [|c cs IHc]; intros [|r rs] Hr; simpl; constructor.
    + inversion Hr; subst. unfold all_missing in *. simpl.
      rewrite H1. apply andb_false_r.
    + inversion Hr; subst. now apply IHc.
Qed.

Lemma keep_by_all (A : Type) (g : A -> bool) xs :
  Forall (fun x => g x = true) xs -> keep_by (map g xs) xs = xs.
Proof.
  induction 1 as [|x xs Hx _ IH]; simpl; auto. now rewrite Hx, IH.
Qed.

Lemma keep_by_subset (A : Type) mask : forall (xs : list A) x,
  In x (keep_by mask xs) -> In x xs.
Proof.
  induction mask as [|b mask IH]; intros [|y xs] x; simpl; try tauto.
  destruct b; simpl; intuition eauto.
Qed.

End NanFacts.



(* ------------------------------------------------------------------ *)
(** *** The scenarios of the specification, evaluated *)

(** Ages 25, 30, 25, 120 with threshold 1.5 and 'cap': Q1 = 25, Q3 = 52.5,
    the upper bound is 93.75; 120 is capped to it and the four rows stay. *)
Example cap_scenario :
  exists q v,
    handle_outliers default_threshold "cap" (init ages_frame) = Returned q
    /\ nrows (df q) = 4
    /\ get_col "age" (df q)
       = Some (NumCol [Some (25 # 1); Some (30 # 1); Some (25 # 1); Some v]%Q)
    /\ (v == 375 # 4)%Q.
Proof. eexists; eexists. repeat split. Qed.

(** The same data with 'remove': the row holding 120 is dropped. *)
Example remove_scenario :
  exists q,
    handle_outliers default_threshold "remove" (init ages_frame) = Returned q
    /\ nrows (df q) = 3
    /\ rows (df q)
       = [[Some (VStr "Juan"); Some (VNum (25 # 1))];
          [Some (VStr "Ana"); Some (VNum (30 # 1))];
          [Some (VStr "Juan"); Some (VNum (25 # 1))]].
Proof. eexists. repeat split. Qed.

(** The usage example: the missing score becomes the median 10.5 of the
    four present scores, the missing date the most frequent date. *)
Example impute_scenario :
  exists v,
    get_col "Score" (df (impute_missing (init demo_frame)))
    = Some (NumCol [Some (21 # 2); Some v; Some (21 # 2); Some (5 # 1);
                    Some (1000 # 1)]%Q)
    /\ (v == 21 # 2)%Q
    /\ get_col "Fecha Registro" (df (impute_missing (init demo_frame)))
       = Some (ObjCol [Some "2023-01-01"; Some "2023-02-01"; Some "2023-01-01";
                       Some "2023-01-01"; Some "2023-05-01"]).
Proof. eexists. repeat split. Qed.

(** An unknown method on a non-empty store raises and leaves the store and
    the report as they were. *)
Example bogus_method_scenario :
  exists q,
    handle_outliers default_threshold "bogus" (init ages_frame)
    = Raised (ValueError (MsgBadMethod "bogus")) q
    /\ df q = ages_frame
    /\ report q = [("initial_shape", Shape 4 2)].
Proof. eexists. repeat split. Qed.

(* ================================================================== *)
(** ** Further properties of the stages *)

(* ------------------------------------------------------------------ *)
(** *** The frame stays rectangular *)

Module ShapeFacts.
Import FrameFacts.

Lemma set_col_well_formed col c d :
  well_formed d -> col_len c = nrows d -> well_formed (set_col col c d).
Proof.
  unfold well_formed. intros Hwf Hc. simpl. rewrite Forall_map.
  eapply Forall_impl; [|exact Hwf]. intros c0 Hc0. simpl.
  now destruct (String.eqb (label c0) col).
Qed.

(** A turn of a loop over labels keeps the frame rectangular when the
    assignment keeps the length of the column. *)
Lemma visit_well_formed guard f d col :
  (forall c, col_len (f c) = col_len c) ->
  well_formed d -> well_formed (visit guard f d col).
Proof.
  intros Hf Hwf. unfold visit.
  destruct (get_col col d) as [c|] eqn:E; auto.
  destruct (guard c); auto.
  apply set_col_well_formed; auto.
  rewrite Hf. now apply (RowFacts.get_col_len col d c).
Qed.

Lemma visit_nrows guard f d col : nrows (visit guard f d col) = nrows d.
Proof.
  unfold visit. destruct (get_col col d) as [c|]; auto. now destruct (guard c).
Qed.

Lemma fold_visit_well_formed guard f names : forall d,
  (forall c, col_len (f c) = col_len c) ->
  well_formed d -> well_formed (fold_left (visit guard f) names d).
Proof.
  induction names as [|col names IH]; simpl; intros d Hf Hwf; auto.
  apply IH; auto. now apply visit_well_formed.
Qed.

Lemma fold_visit_nrows guard f names : forall d,
  nrows (fold_left (visit guard f) names d) = nrows d.
Proof.
  induction names as [|col names IH]; simpl; intros d; auto.
  now rewrite IH, visit_nrows.
Qed.

Lemma standardize_data_len c : col_len (standardize_data c) = col_len c.
Proof.
  destruct c; simpl; auto. unfold col_len, strip_cells; simpl.
  now rewrite !length_map.
Qed.

Lemma fillna_length (A : Type) (v : A) xs : length (Stats.fillna v xs) = length xs.
Proof. unfold Stats.fillna. apply length_map. Qed.

Lemma fill_mode_length (A : Type) (eqb leb : A -> A -> bool) xs :
  length (fill_mode eqb leb xs) = length xs.
Proof.
  unfold fill_mode. destruct (Stats.mode eqb leb xs); auto using fillna_length.
Qed.

Lemma fill_median_length xs : length (fill_median xs) = length xs.
Proof.
  unfold fill_median. destruct (Stats.median xs); auto using fillna_length.
Qed.

Lemma impute_data_len c : col_len (impute_data c) = col_len c.
Proof.
  destruct c; unfold col_len; simpl; rewrite !length_map;
    auto using fill_median_length, fill_mode_length.
Qed.

Lemma cap_values_length lb ub xs : length (cap_values lb ub xs) = length xs.
Proof. unfold cap_values. now rewrite !length_map. Qed.

Lemma cap_column_len t c : col_len (cap_column t c) = col_len c.
Proof.
  destruct c as [xs|xs|xs|xs]; simpl; auto.
  unfold cap_data.
  destruct (Stats.quantile (1 # 4) xs); auto.
  destruct (Stats.quantile (3 # 4) xs); auto.
  destruct (Qeq_bool _ _); auto.
  destruct (existsb _ xs); auto.
  unfold col_len; simpl. now rewrite !length_map, cap_values_length.
Qed.

Lemma rename_well_formed f d : well_formed d -> well_formed (rename_columns f d).
Proof.
  unfold well_formed. intros H. simpl. rewrite Forall_map.
  eapply Forall_impl; [|exact H]. auto.
Qed.

Lemma standardize_well_formed p :
  well_formed (df p) -> well_formed (df (standardize p)).
Proof.
  intros Hwf. unfold standardize. destruct (empty (df p)); auto. simpl.
  rewrite (fold_left_ext _ _ _ _ StandardizeFacts.standardize_col_visit).
  apply fold_visit_well_formed; auto using standardize_data_len, rename_well_formed.
Qed.

Lemma handle_garbage_well_formed p :
  well_formed (df p) -> well_formed (df (handle_garbage p)).
Proof.
  intros Hwf. destruct (empty (df p)) eqn:He.
  - unfold handle_garbage. now rewrite He.
  - rewrite (GarbageFacts.handle_garbage_df p He).
    now apply GarbageFacts.select_rows_well_formed,
              GarbageFacts.select_rows_well_formed.
Qed.

Lemma impute_missing_well_formed p :
  well_formed (df p) -> well_formed (df (impute_missing p)).
Proof.
  intros Hwf. destruct (empty (df p)) eqn:He.
  - unfold impute_missing. now rewrite He.
  - rewrite (ImputeFacts.impute_missing_df p He). unfold impute_over.
    rewrite ImputeFacts.impute_loop.
    apply fold_visit_well_formed; auto using impute_data_len.
Qed.

Lemma handle_outliers_well_formed t m p :
  well_formed (df p) -> well_formed (df (state_of (handle_outliers t m p))).
Proof.
  intros Hwf. unfold handle_outliers.
  destruct (empty (df p)); auto.
  destruct (String.eqb m "remove").
  - destruct (0 <? _); simpl; now apply GarbageFacts.select_rows_well_formed.
  - destruct (String.eqb m "cap"); auto.
    pose proof (OutlierFacts.cap_loop t (select_dtypes is_number (df p)) (df p) 0) as H.
    destruct (fold_left (cap_col t) _ _) as [d n]. simpl in H.
    assert (Hd : well_formed d).
    { rewrite H. apply fold_visit_well_formed; auto using cap_column_len. }
    now destruct (0 <? n).
Qed.

End ShapeFacts.

(** X1: every stage that cleans the data keeps the frame rectangular: if
    each column has one cell per row before standardize, handle_garbage,
    impute_missing or handle_outliers (any threshold, any method, raising or
    not), then each column has one cell per row afterwards. *)
Theorem stages_keep_frame_rectangular (threshold : Q) (method : string) (p : State) :
  well_formed (df p) ->
  well_formed (df (standardize p))
  /\ well_formed (df (handle_garbage p))
  /\ well_formed (df (impute_missing p))
  /\ well_formed (df (state_of (handle_outliers threshold method p))).
Proof.
  intros Hwf.
  auto using ShapeFacts.standardize_well_formed, ShapeFacts.handle_garbage_well_formed,
             ShapeFacts.impute_missing_well_formed, ShapeFacts.handle_outliers_well_formed.
Qed.

Lemma stages_keep_frame_rectangular_witness :
  well_formed (df (standardize (init demo_frame)))
  /\ well_formed (df (handle_garbage (init demo_frame)))
  /\ well_formed (df (impute_missing (init demo_frame)))
  /\ well_formed (df (state_of (handle_outliers default_threshold "remove"
                                  (init demo_frame)))).
Proof.
  apply (stages_keep_frame_rectangular default_threshold "remove" (init demo_frame)).
  repeat constructor.
Defined.

(* ------------------------------------------------------------------ *)
(** *** Running a stage again *)

Module AgainFacts.
Import FrameFacts.

Lemma keep_by_all_true (A : Type) mask : forall (xs : list A),
  Forall (fun b => b = true) mask -> length xs <= length mask ->
  keep_by mask xs = xs.
Proof.
  induction mask as [|b mask IH]; intros [|x xs] Hall Hlen; simpl in *; auto; try lia.
  inversion Hall; subst. rewrite IH; auto. lia.
Qed.

Lemma column_eta c : mkColumn (label c) (data c) = c.
Proof. now destruct c. Qed.

(** Indexing a rectangular frame with a mask that is true for every row
    gives the frame back. *)
Lemma select_rows_all_true mask d :
  well_formed d -> length mask = nrows d -> Forall (fun b => b = true) mask ->
  select_rows mask d = d.
Proof.
  intros Hwf Hlen Hall. unfold select_rows.
  rewrite <- (frame_eta d) at 3. f_equal.
  - rewrite keep_by_all_true; auto; rewrite length_seq; lia.
  - rewrite <- (map_id (columns d)) at 2. apply map_ext_in. intros c Hin.
    rewrite <- (column_eta c) at 3. f_equal.
    unfold well_formed in Hwf. rewrite Forall_forall in Hwf.
    specialize (Hwf c Hin). unfold col_len in Hwf.
    destruct (data c) as [xs|xs|xs|xs]; simpl in *; rewrite length_map in Hwf;
      rewrite keep_by_all_true; auto; lia.
Qed.

(** Without equal rows nothing is flagged as a duplicate. *)
Lemma no_duplicates_flagged rs : forall seen,
  NoDupA row_eq rs ->
  (forall r, In r rs -> existsb (row_eqb r) seen = false) ->
  Forall (fun b => b = true) (map negb (duplicated_from seen rs)).
Proof.
  induction rs as [|r rs IH]; simpl; intros seen Hnd Hseen; constructor.
  - rewrite Hseen; auto.
  - inversion Hnd as [|? ? Hr Hnd']; subst.
    apply IH; auto. intros r' Hr'. simpl.
    rewrite Hseen by auto. rewrite orb_false_r.
    destruct (row_eqb r' r) eqn:E; auto.
    exfalso. apply Hr. apply InA_alt. exists r'. split; auto.
    unfold row_eq. now rewrite GarbageFacts.row_eqb_sym.
Qed.

Lemma drop_duplicates_fixed d :
  well_formed d -> NoDupA row_eq (rows d) -> drop_duplicates d = d.
Proof.
  intros Hwf Hnd. unfold drop_duplicates. apply select_rows_all_true; auto.
  - unfold duplicated.
    now rewrite length_map, GarbageFacts.duplicated_from_length,
                GarbageFacts.rows_length.
  - apply no_duplicates_flagged; auto.
Qed.

Lemma dropna_all_fixed d :
  well_formed d -> Forall (fun r => all_missing r = false) (rows d) ->
  dropna_all d = d.
Proof.
  intros Hwf Hall. unfold dropna_all. apply select_rows_all_true; auto.
  - now rewrite length_map, GarbageFacts.rows_length.
  - rewrite Forall_map. eapply Forall_impl; [|exact Hall].
    intros r Hr. simpl. now rewrite Hr.
Qed.

(** What [handle_garbage] leaves behind, in terms of the rows. *)
Lemma handle_garbage_clean p :
  empty (df p) = false ->
  NoDupA row_eq (rows (df (handle_garbage p)))
  /\ Forall (fun r => all_missing r = false) (rows (df (handle_garbage p))).
Proof.
  intros He. rewrite (GarbageFacts.handle_garbage_rows p He). split.
  - apply GarbageFacts.NoDupA_filter.
    apply (GarbageFacts.keep_unflagged_NoDupA (rows (df p)) []).
  - apply Forall_forall. intros r Hr. apply filter_In in Hr as [_ Hr].
    now apply negb_true_iff in Hr.
Qed.

Lemma median_none xs : Stats.median xs = None -> Stats.present xs = [].
Proof.
  unfold Stats.median. intros H.
  apply OutlierFacts.sort_nil with (leb := Qle_bool).
  destruct (Stats.sort Qle_bool (Stats.present xs)); [reflexivity|].
  destruct (Nat.even _); discriminate.
Qed.

Lemma present_nil_all_missing (A : Type) (xs : list (option A)) :
  Stats.present xs = [] -> Forall (fun x => x = None) xs.
Proof.
  induction xs as [|[v|] xs IH]; simpl; intros H; try discriminate; auto.
Qed.

Lemma fillna_no_missing (A : Type) (v : A) xs :
  existsb (@Stats.is_missing A) (Stats.fillna v xs) = false.
Proof.
  unfold Stats.fillna. induction xs as [|[w|] xs IH]; simpl; auto.
Qed.

Section Order.
Variable A : Type.
Variable eqb : A -> A -> bool.
Variable leb : A -> A -> bool.
Hypothesis eqb_eq : forall x y, eqb x y = true <-> x = y.
Hypothesis leb_total : forall x y, leb x y = true \/ leb y x = true.
Hypothesis leb_trans : forall x y z, leb x y = true -> leb y z = true -> leb x z = true.

Lemma mode_nil xs : Stats.mode eqb leb xs = [] -> Stats.present xs = [].
Proof.
  intros H.
  pose proof (ImputeFacts.mode_most_frequent _ eqb leb eqb_eq leb_total leb_trans xs) as Hm.
  rewrite H in Hm. simpl in Hm.
  induction xs as [|[v|] xs IH]; simpl; auto.
  - specialize (Hm (Some v) (or_introl eq_refl)). discriminate.
  - apply IH.
    + unfold Stats.mode in *. exact H.
    + intros x Hx. apply Hm. now right.
Qed.

(** Filling with the mode either removes every missing cell or, when
    nothing is present, changes nothing. *)
Lemma fill_mode_cases xs :
  (Stats.present xs <> [] /\ existsb (@Stats.is_missing A) (fill_mode eqb leb xs) = false)
  \/ (Stats.present xs = [] /\ fill_mode eqb leb xs = xs).
Proof.
  unfold fill_mode. destruct (Stats.mode eqb leb xs) as [|m rest] eqn:E.
  - right. split; auto. now apply mode_nil.
  - left. split; [|apply fillna_no_missing].
    intros Hnil. unfold Stats.mode in E. rewrite Hnil in E. discriminate.
Qed.
End Order.

Lemma fill_median_cases xs :
  (Stats.present xs <> [] /\ existsb (@Stats.is_missing Q) (fill_median xs) = false)
  \/ (Stats.present xs = [] /\ fill_median xs = xs).
Proof.
  unfold fill_median. destruct (Stats.median xs) as [m|] eqn:E.
  - left. split; [|apply fillna_no_missing].
    intros Hnil. unfold Stats.median in E. rewrite Hnil in E. discriminate.
  - right. split; auto. now apply median_none.
Qed.

Lemma present_map (A B : Type) (f : A -> B) xs :
  Stats.present (map (option_map f) xs) = map f (Stats.present xs).
Proof.
  induction xs as [|[v|] xs IH]; simpl; auto. now rewrite IH.
Qed.

Lemma map_nil_iff (A B : Type) (f : A -> B) l : map f l = [] <-> l = [].
Proof. destruct l; simpl; split; auto; discriminate. Qed.

(** One turn of the imputation loop on a column: with a present value no
    missing cell is left, without one the column is what it was. *)
Lemma impute_turn_cases c :
  (present_cells c <> [] /\ has_null (impute_turn c) = false)
  \/ (present_cells c = [] /\ impute_turn c = c).
Proof.
  unfold impute_turn.
  destruct (has_null c) eqn:Hn.
  2:{ destruct (present_cells c) eqn:E; [right; auto | left; split; auto; discriminate]. }
  unfold present_cells, has_null.
  destruct c as [xs|xs|xs|xs]; simpl; rewrite present_map, ImputeFacts.has_null_map,
    map_nil_iff.
  - destruct (fill_median_cases xs) as [[H1 H2]|[H1 H2]]; [left | right]; auto.
    split; auto. now rewrite H2.
  - destruct (fill_mode_cases _ String.eqb String.leb String.eqb_eq String.leb_total
                ImputeFacts.string_leb_trans xs) as [[H1 H2]|[H1 H2]];
      [left | right]; auto. split; auto. now rewrite H2.
  - destruct (fill_mode_cases _ Z.eqb Z.leb Z.eqb_eq ImputeFacts.Z_leb_total
                ImputeFacts.Z_leb_trans xs) as [[H1 H2]|[H1 H2]];
      [left | right]; auto. split; auto. now rewrite H2.
  - destruct (fill_mode_cases _ String.eqb String.leb String.eqb_eq String.leb_total
                ImputeFacts.string_leb_trans xs) as [[H1 H2]|[H1 H2]];
      [left | right]; auto. split; auto. now rewrite H2.
Qed.

Lemma impute_turn_idem c : impute_turn (impute_turn c) = impute_turn c.
Proof.
  destruct (impute_turn_cases c) as [[_ H]|[_ H]].
  - unfold impute_turn at 1. now rewrite H.
  - now rewrite !H.
Qed.

Lemma impute_missing_closed p :
  empty (df p) = false -> unique_labels (df p) ->
  df (impute_missing p)
  = {| nrows := nrows (df p);
       columns := map (fun c => mkColumn (label c) (impute_turn (data c)))
                      (columns (df p)) |}.
Proof.
  intros He Hnd. rewrite (ImputeFacts.impute_missing_df p He).
  now apply ImputeFacts.impute_over_any_order.
Qed.

End AgainFacts.

(** X2: handle_garbage is idempotent on the store: on a rectangular frame a
    second call finds no duplicate and no entirely missing row and leaves
    the frame of the first call as it is. *)
Theorem handle_garbage_twice (p : State) :
  well_formed (df p) ->
  df (handle_garbage (handle_garbage p)) = df (handle_garbage p).
Proof.
  intros Hwf.
  destruct (empty (df p)) eqn:He.
  { assert (Hp : handle_garbage p = p) by (unfold handle_garbage; now rewrite He).
    now rewrite !Hp. }
  set (p1 := handle_garbage p).
  destruct (empty (df p1)) eqn:He1.
  { unfold handle_garbage at 1. now rewrite He1. }
  rewrite (GarbageFacts.handle_garbage_df p1 He1).
  destruct (AgainFacts.handle_garbage_clean p He) as [Hnd Hall]. fold p1 in Hnd, Hall.
  assert (Hwf1 : well_formed (df p1))
    by now apply ShapeFacts.handle_garbage_well_formed.
  rewrite (AgainFacts.drop_duplicates_fixed (df p1)); auto.
  now apply AgainFacts.dropna_all_fixed.
Qed.

Lemma handle_garbage_twice_witness :
  df (handle_garbage (handle_garbage (init repeated_row_frame)))
  = df (handle_garbage (init repeated_row_frame)).
Proof.
  apply (handle_garbage_twice (init repeated_row_frame)).
  repeat constructor.
Defined.

(** X3: after impute_missing on a non-empty store with distinct labels, a
    column that held at least one present value holds no missing value any
    more, and a column that held none is exactly what it was. *)
Theorem impute_missing_leaves_no_gap (p : State) :
  empty (df p) = false ->
  unique_labels (df p) ->
  forall col c,
    get_col col (df p) = Some c ->
    exists c',
      get_col col (df (impute_missing p)) = Some c'
      /\ (present_cells c <> [] -> has_null c' = false)
      /\ (present_cells c = [] -> c' = c).
Proof.
  intros He Hnd col c Hc. exists (impute_turn c). split.
  - rewrite (OutlierFacts.get_col_mapped impute_turn col (df p) _)
      by now rewrite (AgainFacts.impute_missing_closed p He Hnd).
    now rewrite Hc.
  - destruct (AgainFacts.impute_turn_cases c) as [[H1 H2]|[H1 H2]];
      split; intros H; auto; contradiction.
Qed.

Lemma impute_missing_leaves_no_gap_witness :
  exists c',
    get_col "Score" (df (impute_missing (init demo_frame))) = Some c'
    /\ has_null c' = false.
Proof.
  assert (Hnd : unique_labels (df (init demo_frame))).
  { repeat constructor; simpl; intuition discriminate. }
  destruct (impute_missing_leaves_no_gap (init demo_frame) eq_refl Hnd "Score" _ eq_refl)
    as (c' & Hc' & Hfull & _).
  exists c'. split; auto. apply Hfull. discriminate.
Defined.

(** X4: impute_missing is idempotent on the store (labels distinct): the
    columns filled by the first call have nothing left to fill, and the
    columns it could not fill are not filled by the second call either. *)
Theorem impute_missing_twice (p : State) :
  unique_labels (df p) ->
  df (impute_missing (impute_missing p)) = df (impute_missing p).
Proof.
  intros Hnd.
  destruct (empty (df p)) eqn:He.
  { assert (Hp : impute_missing p = p) by (unfold impute_missing; now rewrite He).
    now rewrite !Hp. }
  pose proof (AgainFacts.impute_missing_closed p He Hnd) as H1.
  assert (He1 : empty (df (impute_missing p)) = false).
  { rewrite H1. unfold empty, ncols in *. simpl. now rewrite length_map. }
  assert (Hnd1 : unique_labels (df (impute_missing p))).
  { unfold unique_labels.
    rewrite (OutlierFacts.labels_mapped impute_turn (df p)); auto. now rewrite H1. }
  rewrite (AgainFacts.impute_missing_closed _ He1 Hnd1).
  rewrite H1. simpl. f_equal. rewrite map_map. apply map_ext. intros c. simpl.
  now rewrite AgainFacts.impute_turn_idem.
Qed.

Lemma impute_missing_twice_witness :
  df (impute_missing (impute_missing (init demo_frame)))
  = df (impute_missing (init demo_frame)).
Proof.
  apply (impute_missing_twice (init demo_frame)).
  repeat constructor; simpl; intuition discriminate.
Defined.

(* ------------------------------------------------------------------ *)
(** *** Quartiles and bounds *)

Module QuantileFacts.
Import Interpolation.

Lemma quantile_interpolate q xs r :
  Stats.quantile q xs = Some r ->
  Stats.sort Qle_bool (Stats.present xs) <> []
  /\ r = interpolate (Stats.sort Qle_bool (Stats.present xs)) q.
Proof.
  unfold Stats.quantile, interpolate. intros H.
  destruct (Stats.sort Qle_bool (Stats.present xs)) as [|a s] eqn:E; [discriminate|].
  split; [discriminate|]. now inversion H.
Qed.

Lemma sorted_nth_le s :
  StronglySorted Qle s ->
  forall i j, i <= j -> j < length s -> (nth i s 0 <= nth j s 0)%Q.
Proof.
  induction 1 as [|a l Hl IH Ha]; simpl; intros i j Hij Hj; [lia|].
  destruct i as [|i], j as [|j]; try lia.
  - apply Qle_refl.
  - rewrite Forall_forall in Ha. apply Ha. apply nth_In. lia.
  - apply IH; lia.
Qed.

(** The floor of a virtual index within the range of the data. *)
Lemma floor_bounds (h : Q) (m : nat) :
  (0 <= h)%Q -> (h <= inject_Z (Z.of_nat m))%Q ->
  (0 <= Qfloor h)%Z /\ (Qfloor h <= Z.of_nat m)%Z
  /\ (0 <= h - inject_Z (Qfloor h))%Q /\ (h - inject_Z (Qfloor h) < 1)%Q.
Proof.
  intros H0 Hm.
  pose proof (Qfloor_le h) as Hf.
  pose proof (Qlt_floor h) as Hlt.
  pose proof (Qfloor_resp_le _ _ H0) as Hz. change (Qfloor 0) with 0%Z in Hz.
  pose proof (Qfloor_resp_le _ _ Hm) as Hmz. rewrite Qfloor_Z in Hmz.
  repeat split; auto.
  - lra.
  - rewrite inject_Z_plus in Hlt. change (inject_Z 1) with 1%Q in Hlt. lra.
Qed.

(** Over sorted values the interpolated quantile grows with the fraction. *)
Lemma interpolate_monotone s q1 q2 :
  StronglySorted Qle s -> s <> [] ->
  (0 <= q1)%Q -> (q1 <= q2)%Q -> (q2 <= 1)%Q ->
  (interpolate s q1 <= interpolate s q2)%Q.
Proof.
  intros Hs Hne H0 H12 H1.
  unfold interpolate.
  set (m := length s - 1).
  assert (Hn : m < length s) by (destruct s; [congruence | simpl in *; lia]).
  set (M := inject_Z (Z.of_nat m)).
  assert (HM : (0 <= M)%Q).
  { unfold M. change 0%Q with (inject_Z 0). rewrite <- Zle_Qle. lia. }
  set (h1 := (q1 * M)%Q). set (h2 := (q2 * M)%Q).
  assert (Hh1 : (0 <= h1)%Q) by (unfold h1; nra).
  assert (Hh12 : (h1 <= h2)%Q) by (unfold h1, h2; nra).
  assert (Hh2 : (h2 <= M)%Q) by (unfold h2; nra).
  destruct (floor_bounds h1 m Hh1) as (Hf1a & Hf1b & Hr1a & Hr1b); [unfold M in *; lra|].
  destruct (floor_bounds h2 m) as (Hf2a & Hf2b & Hr2a & Hr2b); [lra | exact Hh2 |].
  pose proof (Qfloor_resp_le _ _ Hh12) as Hf12.
  set (f1 := Qfloor h1) in *. set (f2 := Qfloor h2) in *.
  set (lo1 := Z.to_nat f1). set (lo2 := Z.to_nat f2).
  assert (Hlo1 : lo1 <= m) by (unfold lo1; lia).
  assert (Hlo2 : lo2 <= m) by (unfold lo2; lia).
  assert (Hlo12 : lo1 <= lo2) by (unfold lo1, lo2; lia).
  set (hi1 := Nat.min (lo1 + 1) m). set (hi2 := Nat.min (lo2 + 1) m).
  assert (Hab1 : (nth lo1 s 0 <= nth hi1 s 0)%Q)
    by (apply sorted_nth_le; auto; unfold hi1; lia).
  assert (Hab2 : (nth lo2 s 0 <= nth hi2 s 0)%Q)
    by (apply sorted_nth_le; auto; unfold hi2; lia).
  destruct (Nat.eq_dec lo1 lo2) as [E|E].
  - assert (Ef : f1 = f2) by (unfold lo1, lo2 in E; lia).
    unfold hi1, hi2 in *. rewrite <- E in *. rewrite <- Ef in *.
    set (a := nth lo1 s 0%Q) in *. set (b := nth (Nat.min (lo1 + 1) m) s 0%Q) in *.
    nra.
  - assert (Hmid : (nth hi1 s 0 <= nth lo2 s 0)%Q)
      by (apply sorted_nth_le; auto; unfold hi1; lia).
    set (a1 := nth lo1 s 0%Q) in *. set (b1 := nth hi1 s 0%Q) in *.
    set (a2 := nth lo2 s 0%Q) in *. set (b2 := nth hi2 s 0%Q) in *.
    nra.
Qed.

Lemma quantile_monotone q1 q2 xs r1 r2 :
  (0 <= q1)%Q -> (q1 <= q2)%Q -> (q2 <= 1)%Q ->
  Stats.quantile q1 xs = Some r1 -> Stats.quantile q2 xs = Some r2 ->
  (r1 <= r2)%Q.
Proof.
  intros H0 H12 H1 Hq1 Hq2.
  apply quantile_interpolate in Hq1 as [Hne ->].
  apply quantile_interpolate in Hq2 as [_ ->].
  apply interpolate_monotone; auto. apply ImputeFacts.sort_Qle.
Qed.

End QuantileFacts.

(** X5: the interquartile range that handle_outliers computes is never
    negative: whenever the quartiles of a column exist, Q1 <= Q3.  So the
    columns that the test [IQR == 0] does not skip have IQR > 0. *)
Theorem interquartile_range_not_negative (xs : list (option Q)) (Q1 Q3 : Q) :
  quartiles xs Q1 Q3 ->
  (0 <= Q3 - Q1)%Q /\ (~ (Q3 - Q1 == 0)%Q -> (0 < Q3 - Q1)%Q).
Proof.
  intros [H1 H3].
  assert (H : (Q1 <= Q3)%Q).
  { apply (QuantileFacts.quantile_monotone (1 # 4) (3 # 4) xs); auto;
      vm_compute; discriminate. }
  split; [lra|]. intros Hn. lra.
Qed.

Lemma interquartile_range_not_negative_witness :
  (0 <= (16 # 4) - (8 # 4))%Q
  /\ (~ ((16 # 4) - (8 # 4) == 0)%Q -> (0 < (16 # 4) - (8 # 4))%Q).
Proof.
  apply (interquartile_range_not_negative five).
  split; reflexivity.
Defined.

Module CoreFacts.

Lemma quartiles_ordered xs Q1 Q3 : quartiles xs Q1 Q3 -> (Q1 <= Q3)%Q.
Proof.
  intros [H1 H3].
  apply (QuantileFacts.quantile_monotone (1 # 4) (3 # 4) xs); auto;
    vm_compute; discriminate.
Qed.

(** With a threshold that is not negative the bounds enclose the quartiles. *)
Lemma bounds_enclose_quartiles t Q1 Q3 :
  (0 <= t)%Q -> (Q1 <= Q3)%Q ->
  (lower_bound t Q1 Q3 <= Q1)%Q /\ (Q3 <= upper_bound t Q1 Q3)%Q.
Proof. unfold lower_bound, upper_bound. intros. split; nra. Qed.

Lemma Forall2_same (A : Type) (R : A -> A -> Prop) l :
  (forall x, R x x) -> Forall2 R l l.
Proof. intros H. induction l; constructor; auto. Qed.

Lemma capped_spares lb ub Q1 Q3 x x' :
  (lb <= Q1)%Q -> (Q3 <= ub)%Q ->
  capped lb ub x x' -> within_or_missing Q1 Q3 x -> x' = x.
Proof.
  intros Hl Hu Hc Hw. destruct x as [v|]; simpl in *; auto.
  destruct Hc as (_ & _ & Hin). apply Hin. lra.
Qed.

End CoreFacts.



(* ------------------------------------------------------------------ *)
(** *** optimize *)

Module OptimizeFacts.
Import FrameFacts Views.

Lemma get_col_set_col_same col c x d :
  get_col col d = Some c -> get_col col (set_col col x d) = Some x.
Proof.
  unfold get_col, set_col; simpl.
  induction (columns d) as [|c0 cols IH]; simpl; [discriminate|].
  destruct (String.eqb (label c0) col) eqn:E; simpl.
  - now rewrite String.eqb_refl.
  - rewrite E. exact IH.
Qed.

Lemma set_col_same_unique col c d :
  unique_labels d -> get_col col d = Some c -> set_col col c d = d.
Proof.
  intros Hnd Hc. unfold set_col. rewrite <- (frame_eta d) at 3. f_equal.
  rewrite <- (map_id (columns d)) at 2. apply map_ext_in. intros c0 Hin.
  destruct (String.eqb_spec (label c0) col) as [E|E]; auto.
  pose proof (get_col_unique d c0 Hnd Hin) as H. rewrite E, Hc in H.
  inversion H; subst. now destruct c0.
Qed.

Lemma set_col_labels col c d : labels (set_col col c d) = labels d.
Proof.
  unfold labels, set_col; simpl. rewrite map_map. apply map_ext. intros c0.
  destruct (String.eqb_spec (label c0) col); auto.
Qed.

Section Parser.
Variable to_datetime : ColData -> option (list (option Z)).

(** With distinct labels one turn of the loop rewrites the column it
    names, and only by [optimize_data]. *)
Lemma optimize_col_step d col :
  unique_labels d ->
  optimize_col to_datetime d col
  = match get_col col d with
    | Some c => set_col col (optimize_data to_datetime (nrows d) col c) d
    | None => d
    end.
Proof.
  intros Hnd. unfold optimize_col, optimize_data.
  fold (date_named col).
  destruct (get_col col d) as [c|] eqn:Hc.
  2:{ destruct (date_named col); now rewrite Hc. }
  assert (Hplain :
            match get_col col d with
            | Some (ObjCol xs) =>
                if (0 <? nrows d) && Qltb (Qnat (nunique xs) / Qnat (nrows d)) (1 # 10)
                then set_col col (CatCol xs) d else d
            | _ => d
            end
            = set_col col
                match c with
                | ObjCol xs => if low_cardinality (nrows d) xs then CatCol xs else c
                | _ => c
                end d).
  { rewrite Hc. unfold low_cardinality.
    destruct c as [xs|xs|xs|xs];
      try (symmetry; now apply set_col_same_unique).
    destruct (_ && _); auto. symmetry; now apply set_col_same_unique. }
  destruct (date_named col); [|exact Hplain].
  destruct (to_datetime c) as [ts|]; [|exact Hplain].
  now rewrite (get_col_set_col_same col c (DateCol ts) d Hc).
Qed.

Lemma optimize_col_one n d col :
  nrows d = n -> unique_labels d ->
  optimize_col to_datetime d col
  = {| nrows := n;
       columns := map (fun c => if String.eqb (label c) col
                                then mkColumn (label c)
                                       (optimize_data to_datetime n (label c) (data c))
                                else c) (columns d) |}.
Proof.
  intros Hn Hnd. rewrite optimize_col_step by auto. subst n.
  pose proof (visit_one (fun _ => true) (optimize_data to_datetime (nrows d) col)
                d col Hnd) as H.
  unfold visit in H. unfold visited in H.
  destruct (get_col col d) as [c|] eqn:Hc.
  - rewrite H. f_equal. apply map_ext. intros c0.
    destruct (String.eqb_spec (label c0) col) as [->|]; auto.
  - etransitivity; [exact H|]. f_equal. apply map_ext. intros c0.
    destruct (String.eqb_spec (label c0) col) as [->|]; auto.
Qed.

Lemma optimize_loop n names : forall d,
  nrows d = n -> NoDup names -> unique_labels d ->
  fold_left (optimize_col to_datetime) names d
  = {| nrows := n;
       columns := map (fun c => if existsb (String.eqb (label c)) names
                                then mkColumn (label c)
                                       (optimize_data to_datetime n (label c) (data c))
                                else c) (columns d) |}.
Proof.
  induction names as [|col names IH]; intros d Hn Hnames Hd; simpl.
  - rewrite map_id. subst n. now rewrite frame_eta.
  - inversion Hnames as [|? ? Hnotin Hnames']; subst.
    rewrite (optimize_col_one (nrows d) d col eq_refl Hd).
    rewrite IH; auto.
    + simpl. f_equal. rewrite map_map. apply map_ext. intros c.
      destruct (String.eqb_spec (label c) col) as [E|E]; simpl.
      * destruct (existsb (String.eqb (label c)) names) eqn:Ex; auto.
        exfalso. apply existsb_eqb_In in Ex. apply Hnotin. now rewrite <- E.
      * reflexivity.
    + unfold unique_labels, labels; simpl. rewrite map_map.
      erewrite map_ext; [exact Hd|].
      intros c; simpl. now destruct (String.eqb (label c) col).
Qed.

(** The frame that [optimize] leaves on a non-empty frame with distinct
    labels. *)
Lemma optimize_df p :
  empty (df p) = false -> unique_labels (df p) ->
  df (optimize to_datetime p)
  = {| nrows := nrows (df p);
       columns := map (fun c => mkColumn (label c)
                                  (optimize_data to_datetime (nrows (df p))
                                     (label c) (data c)))
                      (columns (df p)) |}.
Proof.
  intros He Hnd. unfold optimize. rewrite He. simpl.
  rewrite (optimize_loop (nrows (df p))); auto.
  f_equal. apply map_ext_in. intros c Hin. now rewrite labels_mem.
Qed.

End Parser.

(** The quotient test of line 205 in whole numbers. *)
Lemma low_cardinality_iff n xs :
  low_cardinality n xs = true <-> 10 * nunique xs < n.
Proof.
  unfold low_cardinality, Qnat.
  rewrite andb_true_iff, Nat.ltb_lt, OutlierFacts.Qltb_lt.
  split.
  - intros [Hn Hq].
    assert (Hpos : (0 < inject_Z (Z.of_nat n))%Q).
    { change 0%Q with (inject_Z 0). rewrite <- Zlt_Qlt. lia. }
    set (a := inject_Z (Z.of_nat (nunique xs))) in *.
    set (b := inject_Z (Z.of_nat n)) in *.
    assert (Ha : (a == a / b * b)%Q).
    { field. intros E. rewrite E in Hpos. now apply Qlt_irrefl in Hpos. }
    assert (Hab : (a / b * b < (1 # 10) * b)%Q).
    { apply Qmult_lt_compat_r; auto. }
    assert (H : (inject_Z (10 * Z.of_nat (nunique xs)) < inject_Z (Z.of_nat n))%Q).
    { rewrite inject_Z_mult. change (inject_Z 10) with (10 # 1)%Q.
      fold a b. lra. }
    rewrite <- Zlt_Qlt in H. lia.
  - intros H. split; [lia|].
    assert (Hpos : (0 < inject_Z (Z.of_nat n))%Q).
    { change 0%Q with (inject_Z 0). rewrite <- Zlt_Qlt. lia. }
    apply Qlt_shift_div_r; auto.
    assert (H' : (inject_Z (10 * Z.of_nat (nunique xs)) < inject_Z (Z.of_nat n))%Q).
    { rewrite <- Zlt_Qlt. lia. }
    rewrite inject_Z_mult in H'. change (inject_Z 10) with (10 # 1)%Q in H'. lra.
Qed.

End OptimizeFacts.

Module OptimizeViewFacts.
Import Views.

Lemma get_col_mapped_by_label (G : string -> ColData -> ColData) col d d' :
  columns d' = map (fun c => mkColumn (label c) (G (label c) (data c))) (columns d) ->
  get_col col d' = option_map (G col) (get_col col d).
Proof.
  unfold get_col. intros ->.
  induction (columns d) as [|c cols IH]; simpl; auto.
  destruct (String.eqb_spec (label c) col) as [->|]; simpl; auto.
Qed.

Lemma labels_mapped_by_label (G : string -> ColData -> ColData) d d' :
  columns d' = map (fun c => mkColumn (label c) (G (label c) (data c))) (columns d) ->
  labels d' = labels d.
Proof. unfold labels. intros ->. rewrite map_map. now apply map_ext. Qed.

(** Away from the date-named columns a turn changes the dtype at most. *)
Lemma optimize_data_plain to_datetime n col c :
  date_named col = false ->
  cells (optimize_data to_datetime n col c) = cells c
  /\ match c with
     | ObjCol xs =>
         optimize_data to_datetime n col c
         = if 10 * nunique xs <? n then CatCol xs else ObjCol xs
     | _ => optimize_data to_datetime n col c = c
     end.
Proof.
  intros Hd. unfold optimize_data. rewrite Hd.
  destruct c as [xs|xs|xs|xs]; auto.
  destruct (low_cardinality n xs) eqn:E.
  - apply OptimizeFacts.low_cardinality_iff in E.
    apply Nat.ltb_lt in E. now rewrite E.
  - destruct (10 * nunique xs <? n) eqn:E'; auto.
    apply Nat.ltb_lt, OptimizeFacts.low_cardinality_iff in E'. congruence.
Qed.

Lemma optimize_data_len to_datetime n col c :
  (forall c0 ts, to_datetime c0 = Some ts -> length ts = col_len c0) ->
  col_len (optimize_data to_datetime n col c) = col_len c.
Proof.
  intros Hlen. unfold optimize_data.
  assert (H1 : col_len (if date_named col
                        then match to_datetime c with
                             | Some ts => DateCol ts
                             | None => c
                             end
                        else c) = col_len c).
  { destruct (date_named col); auto.
    destruct (to_datetime c) as [ts|] eqn:E; auto.
    unfold col_len at 1; simpl. rewrite length_map. now apply Hlen. }
  destruct (if date_named col then _ else c) as [xs|xs|xs|xs]; auto.
  destruct (low_cardinality n xs); auto.
Qed.

End OptimizeViewFacts.

(** X7: on a non-empty store with distinct labels optimize keeps the row
    count and the labels; a column whose name holds neither "fecha" nor
    "date" (case ignored) keeps every cell value, and changes its dtype
    only from object to category, which happens exactly when ten times the
    number of its distinct present values is less than the row count; a
    column whose name holds one of the two words becomes the datetime
    column that the parser returns. *)
Theorem optimize_reclassifies_columns
    (to_datetime : ColData -> option (list (option Z))) (p : State) :
  empty (df p) = false ->
  unique_labels (df p) ->
  nrows (df (optimize to_datetime p)) = nrows (df p)
  /\ labels (df (optimize to_datetime p)) = labels (df p)
  /\ (forall col c,
        get_col col (df p) = Some c ->
        Views.date_named col = false ->
        exists c',
          get_col col (df (optimize to_datetime p)) = Some c'
          /\ cells c' = cells c
          /\ match c with
             | ObjCol xs =>
                 c' = if 10 * nunique xs <? nrows (df p) then CatCol xs else ObjCol xs
             | _ => c' = c
             end)
  /\ (forall col c ts,
        get_col col (df p) = Some c ->
        Views.date_named col = true ->
        to_datetime c = Some ts ->
        get_col col (df (optimize to_datetime p)) = Some (DateCol ts)).
Proof.
  intros He Hnd.
  pose proof (OptimizeFacts.optimize_df to_datetime p He Hnd) as Hdf.
  assert (Hcols : columns (df (optimize to_datetime p))
                  = map (fun c => mkColumn (label c)
                                    (Views.optimize_data to_datetime (nrows (df p))
                                       (label c) (data c)))
                        (columns (df p))) by now rewrite Hdf.
  split; [now rewrite Hdf|]. split; [|split].
  - now apply (OptimizeViewFacts.labels_mapped_by_label
                 (Views.optimize_data to_datetime (nrows (df p)))).
  - intros col c Hc Hplain.
    exists (Views.optimize_data to_datetime (nrows (df p)) col c).
    rewrite (OptimizeViewFacts.get_col_mapped_by_label _ col (df p) _ Hcols), Hc.
    split; auto.
    apply OptimizeViewFacts.optimize_data_plain. exact Hplain.
  - intros col c ts Hc Hdate Hts.
    rewrite (OptimizeViewFacts.get_col_mapped_by_label _ col (df p) _ Hcols), Hc.
    simpl. unfold Views.optimize_data. now rewrite Hdate, Hts.
Qed.

Lemma optimize_reclassifies_columns_witness :
  exists c',
    get_col "Nombre " (df (optimize (fun _ => None) (init demo_frame))) = Some c'
    /\ cells c'
       = cells (ObjCol [Some "Juan"; Some "Ana"; Some "Juan"; Some " Pedro ";
                        Some "OutlierMan"])
    /\ c' = if 10 * nunique [Some "Juan"; Some "Ana"; Some "Juan"; Some " Pedro ";
                             Some "OutlierMan"] <? 5
            then CatCol [Some "Juan"; Some "Ana"; Some "Juan"; Some " Pedro ";
                         Some "OutlierMan"]
            else ObjCol [Some "Juan"; Some "Ana"; Some "Juan"; Some " Pedro ";
                         Some "OutlierMan"].
Proof.
  assert (Hnd : unique_labels (df (init demo_frame))).
  { repeat constructor; simpl; intuition discriminate. }
  destruct (optimize_reclassifies_columns (fun _ => None) (init demo_frame) eq_refl Hnd)
    as (_ & _ & Hplain & _).
  exact (Hplain "Nombre " _ eq_refl eq_refl).
Defined.

(** X8: optimize never drops a row or a column, and with a parser that
    returns one timestamp per cell it keeps the frame rectangular; on a
    store none of whose labels holds "fecha" or "date" it changes no cell
    value at all: the rows after the stage are the rows before it. *)
Theorem optimize_keeps_the_values
    (to_datetime : ColData -> option (list (option Z))) (p : State) :
  unique_labels (df p) ->
  (forall c ts, to_datetime c = Some ts -> length ts = col_len c) ->
  well_formed (df p) ->
  well_formed (df (optimize to_datetime p))
  /\ shape (df (optimize to_datetime p)) = shape (df p)
  /\ (Forall (fun l => Views.date_named l = false) (labels (df p)) ->
      rows (df (optimize to_datetime p)) = rows (df p)).
Proof.
  intros Hnd Hparser Hwf.
  destruct (empty (df p)) eqn:He.
  { assert (Hp : optimize to_datetime p = p) by (unfold optimize; now rewrite He).
    rewrite Hp. auto. }
  pose proof (OptimizeFacts.optimize_df to_datetime p He Hnd) as Hdf.
  rewrite Hdf. split; [|split].
  - unfold well_formed in *. simpl. rewrite Forall_map.
    eapply Forall_impl; [|exact Hwf]. intros c Hc. simpl.
    now rewrite OptimizeViewFacts.optimize_data_len.
  - unfold shape, ncols. simpl. now rewrite length_map.
  - intros Hplain. unfold rows. simpl. f_equal. rewrite map_map. simpl.
    apply map_ext_in. intros c Hin.
    apply OptimizeViewFacts.optimize_data_plain.
    rewrite Forall_forall in Hplain. apply Hplain. unfold labels. now apply in_map.
Qed.

Lemma optimize_keeps_the_values_witness :
  well_formed (df (optimize (fun _ => None) (init ages_frame)))
  /\ shape (df (optimize (fun _ => None) (init ages_frame))) = (4, 2)
  /\ (Forall (fun l => Views.date_named l = false) ["name"; "age"] ->
      rows (df (optimize (fun _ => None) (init ages_frame)))
      = rows (df (init ages_frame))).
Proof.
  apply (optimize_keeps_the_values (fun _ => None) (init ages_frame)).
  - repeat constructor; simpl; intuition discriminate.
  - intros c ts H. discriminate.
  - repeat constructor.
Defined.

Module ContainsFacts.

Lemma prefix_iff pat : forall s,
  String.prefix pat s = true <-> exists post, s = String.append pat post.
Proof.
  induction pat as [|a pat IH]; intros s.
  - split; [intros _; now exists s | intros _; now destruct s].
  - destruct s as [|b s]; simpl.
    + split; [discriminate|]. intros [post H]. discriminate.
    + destruct (ascii_dec a b) as [->|N].
      * rewrite IH. split; intros [post H]; exists post; [now rewrite H | now inversion H].
      * split; [discriminate|]. intros [post H]. inversion H. congruence.
Qed.

(** [contains pat s] is Python's [pat in s]: [pat] occurs somewhere in
    [s]. *)
Lemma contains_iff pat : forall s,
  contains pat s = true
  <-> exists pre post, s = String.append pre (String.append pat post).
Proof.
  induction s as [|c s IH].
  - cbn [contains]. rewrite orb_false_r, prefix_iff. split.
    + intros [post H]. now exists EmptyString, post.
    + intros ([|a pre] & post & H); [now exists post | discriminate].
  - cbn [contains]. rewrite orb_true_iff, prefix_iff, IH. split.
    + intros [[post H]|(pre & post & H)].
      * now exists EmptyString, post.
      * exists (String c pre), post. simpl. now rewrite H.
    + intros ([|a pre] & post & H).
      * left. now exists post.
      * right. simpl in H. inversion H. now exists pre, post.
Qed.

End ContainsFacts.

(* ------------------------------------------------------------------ *)
(** *** What standardize leaves behind *)

Module TrimFacts.
Import Text Views.

Lemma stable_normalized c : stable c = true -> normalized_char c = true.
Proof. TextFacts.by_cases_on c. Qed.

Lemma clean_name_normalized s : sall normalized_char (clean_name s) = true.
Proof.
  apply TextFacts.sall_impl with (p := stable).
  - exact stable_normalized.
  - apply TextFacts.clean_name_stable.
Qed.

Lemma rstrip_last t : forall c,
  last_char (rstrip t) = Some c -> is_space c = false.
Proof.
  induction t as [|a t IH]; simpl; intros c H; [discriminate|].
  destruct (rstrip t) as [|b r] eqn:E.
  - destruct (is_space a) eqn:Ea; simpl in H; [discriminate|].
    inversion H; subst. exact Ea.
  - apply IH. exact H.
Qed.

Lemma strip_trimmed s : trimmed (strip s).
Proof.
  unfold trimmed, strip. split.
  - intros c H.
    destruct (TextFacts.lstrip_head s) as [E | (a & r & E & Ha)]; rewrite E in H.
    + discriminate.
    + destruct (TextFacts.rstrip_head a r Ha) as [r' Er]. rewrite Er in H.
      inversion H; subst. exact Ha.
  - apply rstrip_last.
Qed.

Lemma lstrip_decompose s :
  exists pre, s = String.append pre (lstrip s) /\ sall is_space pre = true.
Proof.
  induction s as [|a s IH]; simpl.
  - now exists EmptyString.
  - destruct (is_space a) eqn:Ea.
    + destruct IH as (pre & Hs & Hpre). exists (String a pre). simpl.
      rewrite Ea, Hpre. split; auto. now rewrite <- Hs.
    + now exists EmptyString.
Qed.

Lemma rstrip_decompose t :
  exists post, t = String.append (rstrip t) post /\ sall is_space post = true.
Proof.
  induction t as [|a t IH]; simpl.
  - now exists EmptyString.
  - destruct IH as (post & Ht & Hpost).
    destruct (rstrip t) as [|b r] eqn:E.
    + simpl in Ht. destruct (is_space a) eqn:Ea.
      * exists (String a post). simpl. rewrite Ea, Hpost. split; auto.
        now rewrite <- Ht.
      * exists post. simpl. split; auto. now rewrite <- Ht.
    + exists post. split; auto. simpl. simpl in Ht. now rewrite <- Ht.
Qed.

(** [strip] takes whitespace off both ends and nothing else. *)
Lemma strip_stripped_of s : stripped_of s (strip s).
Proof.
  split; [apply strip_trimmed|].
  destruct (lstrip_decompose s) as (pre & Hs & Hpre).
  destruct (rstrip_decompose (lstrip s)) as (post & Ht & Hpost).
  exists pre, post. split; auto. unfold strip. now rewrite <- Ht.
Qed.

Lemma standardize_labels p :
  empty (df p) = false ->
  labels (df (standardize p)) = map clean_name (labels (df p)).
Proof.
  intros He. unfold standardize. rewrite He. simpl.
  assert (H : forall names d, labels (fold_left standardize_col names d) = labels d).
  { induction names as [|col names IH]; simpl; auto. intros d.
    rewrite IH. unfold standardize_col.
    destruct (get_col col d) as [[xs|xs|xs|xs]|]; auto.
    apply OptimizeFacts.set_col_labels. }
  rewrite H. unfold labels. simpl. rewrite !map_map. now apply map_ext.
Qed.

End TrimFacts.



(* ------------------------------------------------------------------ *)
(** *** Ingestion, construction and export *)

Section WorldFacts.
Import IO.

Variable Engine : Type.
Variable create_engine : string -> option Engine.
Variable read_sql : string -> Engine -> option DataFrame.
Variable path_exists : string -> bool.
Variable suffix : string -> string.
Variable read_csv read_excel read_json read_parquet : string -> option DataFrame.
Variable write : Sink Engine -> DataFrame -> bool.
Variable to_datetime : ColData -> option (list (option Z)).

Let ingest := _ingest create_engine read_sql path_exists suffix
                read_csv read_excel read_json read_parquet.
Let build := construct create_engine read_sql path_exists suffix
               read_csv read_excel read_json read_parquet.
Let table := loaders read_csv read_excel read_json read_parquet.

(** X10: when ingestion fails, for whatever reason, the controller holds
    the empty frame and the report the shape (0, 0); the whole chain of
    stages then returns without raising, whatever the threshold and the
    method, leaves frame and report as they are, and export writes
    nothing. *)
Theorem failed_ingestion_leaves_an_inert_pipeline
    (source : string) (is_sql : bool) (query : option string) (e : LoadError)
    (threshold : Q) (method path format : string) :
  snd (build source is_sql query) = Some e ->
  let p := fst (build source is_sql query) in
  let o := run_all to_datetime threshold method p in
  df p = empty_frame
  /\ report p = [("initial_shape", Shape 0 0)]
  /\ raised o = false
  /\ df (state_of o) = empty_frame
  /\ report (state_of o) = report p
  /\ export create_engine write path format (state_of o) = [WarnedEmpty Engine].
Proof.
  unfold build, construct, _ingest.
  destruct (ingest_body _ _ _ _ _ _ _ _ _ _ _) as [d|err]; simpl; [discriminate|].
  intros _. repeat split.
Qed.

(** X11: export never writes an empty frame and never writes for a format
    other than 'csv', 'excel' or 'sql': a writer is called exactly when the
    store is not empty and the format is one of the three (for 'sql', when
    the engine could be created); it is then called once, on the frame of
    the controller and on the sink of that format, and success is logged
    exactly when that call returned. *)
Theorem export_writes_once_and_only_the_store (path format : string) (p : State) :
  let events := export create_engine write path format p in
  ((exists sink d, In (Wrote sink d) events)
   <-> (empty (df p) = false
        /\ (format = "csv" \/ format = "excel"
            \/ (format = "sql" /\ create_engine path <> None))))
  /\ (forall sink d,
        In (Wrote sink d) events ->
        d = df p
        /\ match sink with
           | CsvFile _ q => format = "csv" /\ q = path
           | ExcelFile _ q => format = "excel" /\ q = path
           | SqlTable engine t =>
               format = "sql" /\ create_engine path = Some engine /\ t = "data_limpia"
           end
        /\ (In (LoggedExported Engine path) events <-> write sink d = true))
  /\ length (filter (fun ev => match ev with Wrote _ _ => true | _ => false end) events)
     <= 1.
Proof.
  unfold export, attempt.
  destruct (empty (df p)) eqn:He.
  { simpl. split; [|split; auto].
    - split; [intros (s0 & d & [H|[]]); discriminate | intros [H _]; discriminate].
    - intros s0 d [H|[]]; discriminate. }
  destruct (String.eqb_spec format "csv") as [Ecsv|Ncsv].
  { subst. split; [|split].
    - split; auto. intros _. exists (CsvFile Engine path), (df p).
      destruct (write _ _); now left.
    - intros s0 d H.
      assert (Hs : s0 = CsvFile Engine path /\ d = df p).
      { destruct (write (CsvFile Engine path) (df p));
          destruct H as [H|[H|[]]]; inversion H; auto. }
      destruct Hs as [-> ->]. repeat split; auto.
      + destruct (write _ _) eqn:W; auto.
        intros [H'|[H'|[]]]; discriminate.
      + intros W. rewrite W. right; now left.
    - destruct (write _ _); simpl; lia. }
  destruct (String.eqb_spec format "excel") as [Eex|Nex].
  { subst. split; [|split].
    - split; auto. intros _. exists (ExcelFile Engine path), (df p).
      destruct (write _ _); now left.
    - intros s0 d H.
      assert (Hs : s0 = ExcelFile Engine path /\ d = df p).
      { destruct (write (ExcelFile Engine path) (df p));
          destruct H as [H|[H|[]]]; inversion H; auto. }
      destruct Hs as [-> ->]. repeat split; auto.
      + destruct (write _ _) eqn:W; auto.
        intros [H'|[H'|[]]]; discriminate.
      + intros W. rewrite W. right; now left.
    - destruct (write _ _); simpl; lia. }
  destruct (String.eqb_spec format "sql") as [Esql|Nsql].
  { subst. destruct (create_engine path) as [engine|] eqn:Ec.
    - split; [|split].
      + split; [intros _; split; auto; right; right; split; auto; discriminate|].
        intros _. exists (SqlTable engine "data_limpia"), (df p).
        destruct (write _ _); now left.
      + intros s0 d H.
        assert (Hs : s0 = SqlTable engine "data_limpia" /\ d = df p).
        { destruct (write (SqlTable engine "data_limpia") (df p));
            destruct H as [H|[H|[]]]; inversion H; auto. }
        destruct Hs as [-> ->]. repeat split; auto.
        * destruct (write _ _) eqn:W; auto.
          intros [H'|[H'|[]]]; discriminate.
        * intros W. rewrite W. right; now left.
      + destruct (write _ _); simpl; lia.
    - split; [|split].
      + split; [intros (s0 & d & [H|[]]); discriminate|].
        intros [_ [H|[H|[_ H]]]]; try discriminate. congruence.
      + intros s0 d [H|[]]; discriminate.
      + simpl. lia. }
  split; [|split].
  - split; [intros (s0 & d & [H|[]]); discriminate|].
    intros [_ [H|[H|[H _]]]]; contradiction.
  - intros s0 d [H|[]]; discriminate.
  - simpl. lia.
Qed.

(** X12: [_ingest] returns a frame without logging an error exactly when
    a library produced it: for a SQL source when the engine was created, a
    query was given and [read_sql] returned; for a file when it exists, its
    suffix in lower case is a key of the table of loaders and that loader
    returned.  In every other case it logs the error and returns the empty
    frame; a missing file is reported as such whatever its suffix. *)
Theorem ingest_returns_a_loaded_frame_or_the_empty_one
    (source : string) (is_sql : bool) (query : option string) :
  (forall d,
     ingest source is_sql query = (d, None)
     <-> ((is_sql = true
           /\ exists engine q,
                create_engine source = Some engine /\ query = Some q
                /\ read_sql q engine = Some d)
          \/ (is_sql = false /\ path_exists source = true
              /\ exists load,
                   lookup (Text.lower (suffix source)) table = Some load
                   /\ load source = Some d)))
  /\ (forall e, snd (ingest source is_sql query) = Some e ->
        fst (ingest source is_sql query) = empty_frame)
  /\ (is_sql = false -> path_exists source = false ->
      ingest source is_sql query = (empty_frame, Some (FileNotFound source))).
Proof.
  unfold ingest, _ingest, ingest_body, table.
  set (L := lookup (Text.lower (suffix source))
              (loaders read_csv read_excel read_json read_parquet)).
  split; [|split].
  - intros d. destruct is_sql.
    + destruct (create_engine source) as [engine|].
      * destruct query as [q|].
        -- destruct (read_sql q engine) as [d0|] eqn:Er.
           ++ split.
              ** intros H. inversion H; subst. left. split; auto.
                 now exists engine, q.
              ** intros [(_ & en & q0 & He & Hq & Hr)|(H & _)]; [|discriminate].
                 inversion He; inversion Hq; subst. congruence.
           ++ split; [discriminate|].
              intros [(_ & en & q0 & He & Hq & Hr)|(H & _)]; [|discriminate].
              inversion He; inversion Hq; subst. congruence.
        -- split; [discriminate|].
           intros [(_ & en & q0 & He & Hq & Hr)|(H & _)]; discriminate.
      * split; [discriminate|].
        intros [(_ & en & q0 & He & Hq & Hr)|(H & _)]; discriminate.
    + destruct (path_exists source); cbn [negb].
      * destruct L as [load|] eqn:El.
        -- destruct (load source) as [d0|] eqn:Ed.
           ++ split.
              ** intros H. inversion H; subst. right. split; auto. split; auto.
                 now exists load.
              ** intros [(H & _)|(_ & _ & l0 & Hl & Hd)]; [discriminate|].
                 inversion Hl; subst. congruence.
           ++ split; [discriminate|].
              intros [(H & _)|(_ & _ & l0 & Hl & Hd)]; [discriminate|].
              inversion Hl; subst. congruence.
        -- split; [discriminate|].
           intros [(H & _)|(_ & _ & l0 & Hl & Hd)]; discriminate.
      * split; [discriminate|].
        intros [(H & _)|(_ & H & _)]; discriminate.
  - intros e.
    destruct (if is_sql then _ else _) as [d|err]; cbn [fst snd];
      [discriminate | auto].
  - intros -> Hp. now rewrite Hp.
Qed.

End WorldFacts.

Lemma failed_ingestion_leaves_an_inert_pipeline_witness :
  IO.export (fun _ : string => @None unit) (fun _ _ => true) "salida.csv" "csv"
    (state_of
       (run_all (fun _ => None) default_threshold "cap"
          (fst (IO.construct (fun _ : string => @None unit) (fun _ _ => None)
                  (fun _ => true) (fun _ => ".txt")
                  (fun _ => None) (fun _ => None) (fun _ => None) (fun _ => None)
                  "datos.txt" false None))))
  = [IO.WarnedEmpty unit].
Proof.
  destruct (failed_ingestion_leaves_an_inert_pipeline
              unit (fun _ => None) (fun _ _ => None) (fun _ => true) (fun _ => ".txt")
              (fun _ => None) (fun _ => None) (fun _ => None) (fun _ => None)
              (fun _ _ => true) (fun _ => None)
              "datos.txt" false None (IO.UnsupportedFormat ".txt")
              default_threshold "cap" "salida.csv" "csv" eq_refl)
    as (_ & _ & _ & _ & _ & H).
  exact H.
Defined.

(* ------------------------------------------------------------------ *)
(** *** Outliers, whatever the threshold *)

Module AnyThresholdFacts.

(** A cell that capping changes was an outlier and holds a bound. *)
Lemma cap_values_moves lb ub xs :
  Forall2 (fun x x' => match x with
                       | None => x' = None
                       | Some _ =>
                           x' = x
                           \/ (outlier lb ub x /\ (x' = Some lb \/ x' = Some ub))
                       end) xs (cap_values lb ub xs).
Proof.
  unfold cap_values. rewrite map_map.
  induction xs as [|x xs IH]; simpl; constructor; auto.
  destruct x as [v|]; auto.
  destruct (Qltb v lb) eqn:E1.
  - apply OutlierFacts.Qltb_lt in E1. right. split; [now left|].
    destruct (Qltb ub lb); auto.
  - destruct (Qltb ub v) eqn:E2; auto.
    apply OutlierFacts.Qltb_lt in E2. right. split; [now right | auto].
Qed.

Lemma keep_by_full (A : Type) mask : forall (xs : list A),
  length mask = length xs ->
  length (keep_by mask xs) = length xs ->
  Forall (fun b => b = true) mask.
Proof.
  induction mask as [|b mask IH]; intros [|x xs] Hlen Hfull; simpl in *;
    try discriminate; auto.
  destruct b.
  - constructor; auto. apply (IH xs); simpl in *; lia.
  - pose proof (RowFacts.keep_by_length_le _ mask xs). lia.
Qed.

End AnyThresholdFacts.





(* ------------------------------------------------------------------ *)
(** *** The value that fills a numeric column *)

Module MedianFacts.

Lemma filter_all (A : Type) (f : A -> bool) l :
  (forall x, In x l -> f x = true) -> filter f l = l.
Proof.
  induction l as [|a l IH]; simpl; intros H; auto.
  rewrite (H a (or_introl eq_refl)), IH; auto.
Qed.

Lemma skipn_In (A : Type) (d : A) l : forall j x,
  In x (skipn j l) -> exists i, j <= i /\ i < length l /\ nth i l d = x.
Proof.
  induction l as [|a l IH]; intros j x H.
  - destruct j; destruct H.
  - destruct j as [|j]; simpl in H.
    + destruct H as [->|H].
      * exists 0. simpl. repeat split; lia.
      * apply (In_nth _ _ d) in H as (i & Hi & Hx). exists (S i). simpl.
        repeat split; auto; lia.
    + apply IH in H as (i & Hj & Hi & Hx). exists (S i). simpl.
      repeat split; auto; lia.
Qed.

(** If the first [j] entries pass a test, at least [j] entries pass it. *)
Lemma count_prefix (A : Type) (d : A) (f : A -> bool) l j :
  j <= length l ->
  (forall i, i < j -> f (nth i l d) = true) ->
  j <= length (filter f l).
Proof.
  intros Hj H. rewrite <- (firstn_skipn j l), filter_app, length_app.
  rewrite filter_all.
  - rewrite length_firstn. lia.
  - intros x Hx. apply (GarbageFacts.firstn_In _ d l j x Hj) in Hx as (i & Hi & <-).
    now apply H.
Qed.

(** If the entries from [j] on pass a test, at least [length l - j] do. *)
Lemma count_suffix (A : Type) (d : A) (f : A -> bool) l j :
  (forall i, j <= i -> i < length l -> f (nth i l d) = true) ->
  length l - j <= length (filter f l).
Proof.
  intros H. rewrite <- (firstn_skipn j l) at 2. rewrite filter_app, length_app.
  rewrite (filter_all _ f (skipn j l)).
  - rewrite length_skipn. lia.
  - intros x Hx. apply (skipn_In _ d) in Hx as (i & Hj & Hi & <-). now apply H.
Qed.

Lemma filter_length_perm (A : Type) (f : A -> bool) l l' :
  Permutation l l' -> length (filter f l) = length (filter f l').
Proof.
  induction 1 as [| x l l' _ IH | x y l | l l' l'' _ IH1 _ IH2]; simpl; auto.
  - destruct (f x); simpl; auto.
  - destruct (f x), (f y); simpl; auto.
  - congruence.
Qed.

Lemma half_facts n :
  n <> 0 ->
  n / 2 < n
  /\ (Nat.even n = true -> 1 <= n / 2 /\ 2 * (n / 2) = n)
  /\ (Nat.even n = false -> 2 * (n / 2) + 1 = n).
Proof.
  intros Hn.
  pose proof (Nat.div_mod_eq n 2) as Hdm.
  pose proof (Nat.mod_upper_bound n 2) as Hub.
  split; [|split].
  - apply Nat.div_lt; lia.
  - intros He. apply Nat.even_spec in He as [k Hk]. subst.
    rewrite Nat.mul_comm, Nat.div_mul by lia. lia.
  - intros Ho.
    assert (Hodd : Nat.odd n = true) by (rewrite <- Nat.negb_even; now rewrite Ho).
    apply Nat.odd_spec in Hodd as [k Hk]. subst.
    replace (2 * k + 1) with (1 + k * 2) by lia.
    rewrite Nat.div_add by lia. simpl. lia.
Qed.

(** The median of a sorted, non-empty list splits it in halves. *)
Lemma median_splits s m :
  StronglySorted Qle s -> s <> [] ->
  m = (if Nat.even (length s)
       then ((nth (length s / 2 - 1) s 0 + nth (length s / 2) s 0) / 2)%Q
       else nth (length s / 2) s 0%Q) ->
  (nth 0 s 0 <= m)%Q /\ (m <= nth (length s - 1) s 0)%Q
  /\ length s <= 2 * length (filter (fun v => Qle_bool v m) s)
  /\ length s <= 2 * length (filter (fun v => Qle_bool m v) s).
Proof.
  intros Hs Hne Hm.
  set (n := length s) in *.
  assert (Hn : n <> 0) by (unfold n; destruct s; [congruence | discriminate]).
  destruct (half_facts n Hn) as (Hk & Heven & Hodd).
  set (k := n / 2) in *.
  destruct (Nat.even n) eqn:E.
  - destruct (Heven eq_refl) as [Hk1 H2k].
    assert (Hlo : (nth (k - 1) s 0 <= nth k s 0)%Q)
      by (apply QuantileFacts.sorted_nth_le; auto; lia).
    assert (Hm1 : (nth (k - 1) s 0 <= m)%Q).
    { rewrite Hm. apply Qle_shift_div_l; [reflexivity|]. lra. }
    assert (Hm2 : (m <= nth k s 0)%Q).
    { rewrite Hm. apply Qle_shift_div_r; [reflexivity|]. lra. }
    assert (H0 : (nth 0 s 0 <= nth (k - 1) s 0)%Q)
      by (apply QuantileFacts.sorted_nth_le; auto; lia).
    assert (Hlast : (nth k s 0 <= nth (n - 1) s 0)%Q)
      by (apply QuantileFacts.sorted_nth_le; auto; lia).
    split; [lra|]. split; [lra|]. split.
    + assert (Hc : k <= length (filter (fun v => Qle_bool v m) s)).
      { apply (count_prefix _ 0%Q); [fold n; lia|].
        intros i Hi. apply Qle_bool_iff.
        apply Qle_trans with (nth (k - 1) s 0%Q); auto.
        apply QuantileFacts.sorted_nth_le; auto; fold n; lia. }
      lia.
    + assert (Hc : n - k <= length (filter (fun v => Qle_bool m v) s)).
      { apply (count_suffix _ 0%Q). intros i Hki Hi. apply Qle_bool_iff.
        apply Qle_trans with (nth k s 0%Q); auto.
        apply QuantileFacts.sorted_nth_le; auto. }
      lia.
  - specialize (Hodd eq_refl).
    assert (H0 : (nth 0 s 0 <= nth k s 0)%Q)
      by (apply QuantileFacts.sorted_nth_le; auto; lia).
    assert (Hlast : (nth k s 0 <= nth (n - 1) s 0)%Q)
      by (apply QuantileFacts.sorted_nth_le; auto; lia).
    rewrite Hm. split; auto. split; auto. split.
    + assert (Hc : k + 1 <= length (filter (fun v => Qle_bool v (nth k s 0%Q)) s)).
      { apply (count_prefix _ 0%Q); [fold n; lia|].
        intros i Hi. apply Qle_bool_iff.
        apply QuantileFacts.sorted_nth_le; auto; fold n; lia. }
      lia.
    + assert (Hc : n - k <= length (filter (fun v => Qle_bool (nth k s 0%Q) v) s)).
      { apply (count_suffix _ 0%Q). intros i Hki Hi. apply Qle_bool_iff.
        apply QuantileFacts.sorted_nth_le; auto. }
      lia.
Qed.

End MedianFacts.


